(** * Relay scripts for the Jetson GPIO header

    A shallow embedding of [examples/relay_control.py] (the cycle driver)
    and [examples/relay_switch.py] (the one-shot driver).

    Both scripts talk to collaborators that live outside the repository:
    the [Jetson.GPIO] driver, [time.sleep] and [argparse].  Every call to
    the driver and to [time.sleep], and every [print], is recorded as an
    [Event] of the run, in program order.  What the outside world decides
    (whether CTRL+C arrives during a given sleep, whether [time.sleep]
    accepts its argument) is a [World] the run is parameterised by.  The
    [while] loops take fuel, and a run that exhausts it is reported as
    [Unfinished], never as a result.

    Two things are taken for granted: the calls to the GPIO driver do not
    fail, and CTRL+C arrives while the process sleeps (the scripts spend
    their time there). *)

From Stdlib Require Import ZArith List String Ascii Bool Lia Arith.
From Stdlib Require Import Floats.SpecFloat.
Import ListNotations.

Set Implicit Arguments.

(** ** Python values the scripts handle *)

(** A Python number: [argparse] produces floats ([type=float]) and ints
    ([type=int]); the literal defaults [0] and the literal [1] passed to
    [time.sleep] are ints.  Floats are IEEE values, NaN and infinities
    included ([float('nan')] is a legal [--hold-time]). *)
Inductive pynum :=
| PyInt (z : Z)
| PyFloat (f : spec_float).

Definition float_zero : spec_float := S754_zero false.

(** [x > 0], [x == 0] and [x < 0] as Python evaluates them against the int
    literal [0]. *)
Definition py_gt0 (x : pynum) : bool :=
  match x with
  | PyInt z => (0 <? z)%Z
  | PyFloat f => SFltb float_zero f
  end.

Definition py_eq0 (x : pynum) : bool :=
  match x with
  | PyInt z => (z =? 0)%Z
  | PyFloat f => SFeqb f float_zero
  end.

Definition py_lt0 (x : pynum) : bool :=
  match x with
  | PyInt z => (z <? 0)%Z
  | PyFloat f => SFltb f float_zero
  end.

(** Python's [float(s)] and [int(s)], the [type=] converters the parsers
    use; [None] stands for ValueError.  They are the interpreter's, so
    the scripts take them as given. *)
Record Builtins := {
  float : string -> option spec_float;
  int : string -> option Z
}.

(** [2.0] *)
Definition float_two : spec_float := S754_finite false 4503599627370496 (-51).

(** ** The GPIO driver and the recorded effects *)

(** [GPIO.LOW] and [GPIO.HIGH]. *)
Inductive Level := LOW | HIGH.

Definition Level_eqb (a b : Level) : bool :=
  match a, b with
  | LOW, LOW | HIGH, HIGH => true
  | _, _ => false
  end.

Definition complement (l : Level) : Level :=
  match l with LOW => HIGH | HIGH => LOW end.

(** How one call of [time.sleep] ends. *)
Inductive SleepOutcome :=
| Elapsed        (* the full duration passed *)
| Interrupted    (* CTRL+C arrived: KeyboardInterrupt is raised *)
| Refused.       (* the argument was rejected: ValueError, OverflowError, OSError *)

(** The lines the scripts print. *)
Inductive Msg :=
| MsgBanner                              (* "Relay Control Demo" *)
| MsgPin (pin : Z)                       (* "Relay connected to pin {pin}" *)
| MsgPolarity (active_high : bool)       (* "Relay is active HIGH/LOW" *)
| MsgOnTime (d : pynum)                  (* "ON time: {d} seconds" *)
| MsgOffTime (d : pynum)                 (* "OFF time: {d} seconds" *)
| MsgCycles (n : option Z)               (* "Cycles: Infinite" or the number *)
| MsgPressCtrlC                          (* "Press CTRL+C to exit" *)
| MsgRelayOn (pin : Z) (shown : Level)   (* "Relay ON (Pin {pin} set to ...)" *)
| MsgRelayOff (pin : Z) (shown : Level)  (* "Relay OFF (Pin {pin} set to ...)" *)
| MsgCompleted (count total : Z)         (* "Completed cycle {count} of {total}" *)
| MsgStopped                             (* "Program stopped by user" *)
| MsgCleaningUp                          (* "Cleaning up GPIO and turning relay OFF" *)
| MsgHolding (d : pynum)                 (* "Holding state for {d} seconds..." *)
| MsgPressCtrlCCleanup                   (* "Press CTRL+C to exit and cleanup GPIO" *)
| MsgCleanedUp                           (* "GPIO cleaned up" *)
| MsgUsage                               (* argparse: usage and error text *)
| MsgHelp.                               (* argparse: help text *)

Inductive Event :=
| Setmode                                    (* GPIO.setmode(GPIO.BOARD) *)
| Setup (pin : Z) (initial : option Level)   (* GPIO.setup(pin, GPIO.OUT[, initial=..]) *)
| Output (pin : Z) (value : Level)           (* GPIO.output(pin, value) *)
| Cleanup                                    (* GPIO.cleanup() *)
| Sleep (secs : pynum) (how : SleepOutcome)  (* time.sleep(secs) *)
| Print (m : Msg).

(** The events that touch the hardware. *)
Definition hardware (e : Event) : bool :=
  match e with
  | Setmode | Setup _ _ | Output _ _ | Cleanup => true
  | Sleep _ _ | Print _ => false
  end.


Definition is_write (e : Event) : bool :=
  match e with Output _ _ => true | _ => false end.

Definition is_sleep (e : Event) : bool :=
  match e with Sleep _ _ => true | _ => false end.

Definition is_cleanup (e : Event) : bool :=
  match e with Cleanup => true | _ => false end.

(** The levels written to the pin, oldest first. *)
Fixpoint writes (t : list Event) : list Level :=
  match t with
  | [] => []
  | Output _ v :: t' => v :: writes t'
  | _ :: t' => writes t'
  end.

(** The last level written before the trace ends. *)
Definition last_write (t : list Event) : option Level :=
  last (map Some (writes t)) None.

(** ** The outside world *)

(** [interrupt_at k] tells whether CTRL+C arrives while the process is in
    its [k]-th call of [time.sleep] (counted from 0); [sleep_accepts d]
    whether [time.sleep] accepts [d] at all (it raises ValueError on a
    negative or NaN argument, OverflowError or OSError on one too large,
    before it blocks). *)
Record World := {
  interrupt_at : nat -> bool;
  sleep_accepts : pynum -> bool
}.

Definition sleep_outcome (w : World) (k : nat) (d : pynum) : SleepOutcome :=
  if negb (sleep_accepts w d) then Refused
  else if interrupt_at w k then Interrupted
  else Elapsed.

(** ** Runs: a writer/state/exception monad *)

Inductive Exn :=
| KeyboardInterrupt
| SleepError.      (* ValueError / OverflowError out of time.sleep *)

Inductive Outcome (A : Type) :=
| Normal (a : A)   (* ran to its end *)
| Raise (e : Exn)  (* left by an exception *)
| Unfinished.      (* the fuel ran out: the loop was still going *)

Arguments Raise {A} e.
Arguments Unfinished {A}.

(** What a piece of program did: the events it produced, the number of
    [time.sleep] calls made so far, and how it ended. *)
Record Run (A : Type) := mkRun {
  log : list Event;
  naps : nat;
  result : Outcome A
}.

Definition M (A : Type) : Type := World -> nat -> Run A.

Definition ret {A} (a : A) : M A :=
  fun _ k => mkRun [] k (Normal a).

Definition bind {A B} (m : M A) (f : A -> M B) : M B :=
  fun w k =>
    let r := m w k in
    match result r with
    | Normal a =>
        let r' := f a w (naps r) in
        mkRun (log r ++ log r') (naps r') (result r')
    | Raise e => mkRun (log r) (naps r) (Raise e)
    | Unfinished => mkRun (log r) (naps r) Unfinished
    end.

Declare Scope run_scope.
Delimit Scope run_scope with run.
Notation "x <- c1 ;; c2" := (bind c1 (fun x => c2))
  (at level 61, c1 at next level, right associativity) : run_scope.
Notation "c1 ;; c2" := (bind c1 (fun _ => c2))
  (at level 61, right associativity) : run_scope.
Local Open Scope run_scope.

Definition emit (e : Event) : M unit :=
  fun _ k => mkRun [e] k (Normal tt).

Definition out_of_fuel {A} : M A :=
  fun _ k => mkRun [] k Unfinished.

Definition GPIO_setmode : M unit := emit Setmode.
Definition GPIO_setup (pin : Z) (initial : option Level) : M unit :=
  emit (Setup pin initial).
Definition GPIO_output (pin : Z) (v : Level) : M unit := emit (Output pin v).
Definition GPIO_cleanup : M unit := emit Cleanup.
Definition print (m : Msg) : M unit := emit (Print m).

(** [time.sleep(d)]: the world decides how it ends. *)
Definition time_sleep (d : pynum) : M unit :=
  fun w k =>
    let how := sleep_outcome w k d in
    mkRun [Sleep d how] (S k)
      match how with
      | Elapsed => Normal tt
      | Interrupted => Raise KeyboardInterrupt
      | Refused => Raise SleepError
      end.

(** [try: body  except KeyboardInterrupt: handler] *)
Definition try_except_KeyboardInterrupt {A} (body handler : M A) : M A :=
  fun w k =>
    let r := body w k in
    match result r with
    | Raise KeyboardInterrupt =>
        let r' := handler w (naps r) in
        mkRun (log r ++ log r') (naps r') (result r')
    | _ => r
    end.

(** [try: body  finally: final].  The [finally] block runs however the
    body left; an exception of the body is raised again after it. *)
Definition try_finally {A} (body : M A) (final : M unit) : M A :=
  fun w k =>
    let r := body w k in
    match result r with
    | Unfinished => r
    | _ =>
        let r' := final w (naps r) in
        mkRun (log r ++ log r') (naps r')
          match result r' with
          | Normal _ => result r
          | Raise e => Raise e
          | Unfinished => Unfinished
          end
    end.

(** ** The process *)

Inductive Ending :=
| Exited (status : Z)   (* the process is gone, with this exit status *)
| Running.              (* still running when the fuel ran out *)

Record Process := mkProcess {
  trace : list Event;
  ending : Ending
}.

(** The interpreter runs [main()] from a fresh state: a normal return is
    exit status 0, an exception nobody caught is a traceback and exit
    status 1. *)
Definition run_main (w : World) (m : M unit) : Process :=
  let r := m w 0%nat in
  mkProcess (log r)
    match result r with
    | Normal _ => Exited 0
    | Raise _ => Exited 1
    | Unfinished => Running
    end.

(** ** [argparse]

    [parser.parse_args()] is the standard library's; the repository's part
    is the parser each script builds with [add_argument].  [ArgumentParser]
    below is that table, and [parse_args] follows the library's documented
    behaviour for it: flags may be abbreviated to an unambiguous prefix,
    a value is given as [--flag value] or [--flag=value], short flags can
    be joined, [--] ends the flags, a word that looks like a negative number
    is an argument, [-h] prints the help and exits with status 0, and every
    error prints the usage and exits with status 2.  Where the
    documentation is silent (what becomes of [--] itself), the model
    follows the library as it is in CPython 3.11: a positional takes
    the [--] right before or right after its word, a flag never takes one
    as its value, and any other [--] is a word left over.  Command-line
    words are ASCII strings. *)

Module Argparse.

Inductive Parsed (A : Type) :=
| Namespace (a : A)
| SystemExit (status : Z).

Arguments SystemExit {A} status.

(** *** Words *)

Fixpoint split_at (c : ascii) (s : string) : option (string * string) :=
  match s with
  | EmptyString => None
  | String a s' =>
      if Ascii.eqb a c then Some (EmptyString, s')
      else match split_at c s' with
           | Some (l, r) => Some (String a l, r)
           | None => None
           end
  end.

Fixpoint contains (c : ascii) (s : string) : bool :=
  match s with
  | EmptyString => false
  | String a s' => Ascii.eqb a c || contains c s'
  end.

Definition is_digit (c : ascii) : bool :=
  (48 <=? nat_of_ascii c)%nat && (nat_of_ascii c <=? 57)%nat.

Fixpoint all_digits (s : string) : bool :=
  match s with
  | EmptyString => true
  | String a s' => is_digit a && all_digits s'
  end.

Fixpoint strip_digits (s : string) : string :=
  match s with
  | EmptyString => EmptyString
  | String a s' => if is_digit a then strip_digits s' else s
  end.

(** [\d+] *)
Definition digits1 (s : string) : bool :=
  negb (String.eqb s "") && all_digits s.

(** [\d+|\d*\.\d+] *)
Definition number_body (s : string) : bool :=
  digits1 s ||
  match strip_digits s with
  | String "."%char r => digits1 r
  | _ => false
  end.

(** Drops one final newline: [$] also matches just before it. *)
Fixpoint chomp (s : string) : string :=
  match s with
  | EmptyString => EmptyString
  | String a EmptyString => if Ascii.eqb a "010"%char then EmptyString else s
  | String a s' => String a (chomp s')
  end.

(** The parser's pattern for negative numbers, ['^-\d+$|^-\d*\.\d+$']. *)
Definition negative_number (s : string) : bool :=
  match s with
  | String "-"%char r => number_body r || number_body (chomp r)
  | _ => false
  end.

(** [s[1]] is a prefix character: the word starts a long flag. *)
Definition second_is_dash (s : string) : bool :=
  match s with
  | String _ (String "-"%char _) => true
  | _ => false
  end.

Section Parser.

Variable A : Type.   (* the namespace the parser fills *)

(** What [add_argument] registered for a flag.  [Store] takes one value;
    its function is the [type=] conversion followed by the [choices=]
    check, and answers [None] when either fails. *)
Inductive Action :=
| Store (convert : string -> option (A -> A))
| StoreConst (set : A -> A)     (* store_true, store_false *)
| HelpAction.

Record Optional := mkOptional {
  option_strings : list string;
  action : Action
}.

Record ArgumentParser := mkParser {
  optionals : list Optional;
  positionals : list (string -> option (A -> A));
  defaults : A
}.

Variable p : ArgumentParser.

Definition option_string_actions : list (string * Action) :=
  flat_map (fun o => map (fun s => (s, action o)) (option_strings o))
           (optionals p).

Definition lookup_option (s : string) : option Action :=
  option_map snd (find (fun oa => String.eqb (fst oa) s) option_string_actions).

(** A word of the command line, as the first pass over it reads it. *)
Inductive Tok :=
| TArg (s : string)                                        (* an argument *)
| TFlag (o : string) (act : Action) (explicit : option string)
                                                           (* a flag of the parser *)
| TUnknown (s : string)                                    (* a flag of nobody *)
| TSep.                                                    (* the first [--] *)

Inductive Class :=
| COne (t : Tok)
| CAmbiguous.

(** The flags a word abbreviates, with the value glued to it. *)
Definition option_tuples (s : string) : list Tok :=
  if second_is_dash s then
    let '(pre, explicit) :=
      match split_at "="%char s with
      | Some (l, r) => (l, Some r)
      | None => (s, None)
      end in
    flat_map (fun oa => if String.prefix pre (fst oa)
                        then [TFlag (fst oa) (snd oa) explicit] else [])
             option_string_actions
  else
    let short := String.substring 0 2 s in
    let glued := String.substring 2 (String.length s - 2) s in
    flat_map (fun oa => if String.eqb (fst oa) short
                        then [TFlag (fst oa) (snd oa) (Some glued)]
                        else if String.prefix s (fst oa)
                        then [TFlag (fst oa) (snd oa) None] else [])
             option_string_actions.

Definition classify (s : string) : Class :=
  match s with
  | EmptyString => COne (TArg s)
  | String c _ =>
      if negb (Ascii.eqb c "-"%char) then COne (TArg s)
      else
        match lookup_option s with
        | Some act => COne (TFlag s act None)
        | None =>
            if (String.length s =? 1)%nat then COne (TArg s)
            else
              let exact :=
                match split_at "="%char s with
                | Some (l, r) =>
                    match lookup_option l with
                    | Some act => Some (TFlag l act (Some r))
                    | None => None
                    end
                | None => None
                end in
              match exact with
              | Some t => COne t
              | None =>
                  match option_tuples s with
                  | [t] => COne t
                  | _ :: _ :: _ => CAmbiguous
                  | [] =>
                      if negative_number s then COne (TArg s)
                      else if contains " "%char s then COne (TArg s)
                      else COne (TUnknown s)
                  end
              end
        end
  end.

(** The first pass: every word before the first [--] is classified, every
    word after it is an argument.  [None]: a word abbreviates several
    flags. *)
Fixpoint tokenize (argv : list string) : option (list Tok) :=
  match argv with
  | [] => Some []
  | s :: rest =>
      if String.eqb s "--" then Some (TSep :: map TArg rest)
      else
        match classify s, tokenize rest with
        | COne t, Some ts => Some (t :: ts)
        | _, _ => None
        end
  end.

(** A flag with a value glued to it.  The value belongs to a [Store]; on a
    short flag that takes none, it is a run of further short flags.
    Answers the flags that take nothing, in order, then the last flag and
    its value if it came glued. *)
Fixpoint uncluster (o : string) (act : Action) (glued : string)
  : option (list Action * Action * option string) :=
  match act with
  | Store _ => Some ([], act, Some glued)
  | _ =>
      if second_is_dash o then None    (* ignored explicit argument *)
      else
        match glued with
        | EmptyString => None
        | String c glued' =>
            match lookup_option (String "-"%char (String c EmptyString)) with
            | None => None
            | Some act' =>
                match glued' with
                | EmptyString => Some ([act], act', None)
                | _ =>
                    match uncluster (String "-"%char (String c EmptyString)) act' glued' with
                    | Some (acts, final, v) => Some (act :: acts, final, v)
                    | None => None
                    end
                end
            end
        end
  end.

Definition resolve_flag (o : string) (act : Action) (explicit : option string)
  : option (list Action * Action * option string) :=
  match explicit with
  | None => Some ([], act, None)
  | Some glued => uncluster o act glued
  end.

(** Runs actions that take no value.  [None]: the help was asked for. *)
Fixpoint take_actions (acts : list Action) (ns : A) : option A :=
  match acts with
  | [] => Some ns
  | StoreConst set :: acts' => take_actions acts' (set ns)
  | HelpAction :: _ => None
  | Store _ :: acts' => take_actions acts' ns
  end.

(** A [Store] flag still waiting for its value, with the flags joined in
    front of it. *)
Definition Pending : Type := (list Action * (string -> option (A -> A)))%type.

(** Where the second pass stands: [pos] are the positionals not yet
    filled, [extras] tells whether a word was left over, [pending] is the
    flag whose value the next word must be, [slack] tells whether the last
    word filled a positional (a [--] right after it goes with it). *)
Record PState := mkPState {
  ns : A;
  pos : list (string -> option (A -> A));
  extras : bool;
  pending : option Pending;
  slack : bool
}.

(** One word of the second pass: the new state, or the exit status. *)
Definition step (t : Tok) (st : PState) : PState + Z :=
  match pending st with
  | Some (acts, convert) =>
      match t with
      | TArg v =>
          match take_actions acts (ns st) with
          | None => inr 0%Z
          | Some ns' =>
              match convert v with
              | Some set => inl (mkPState (set ns') (pos st) (extras st) None false)
              | None => inr 2%Z              (* invalid value or choice *)
              end
          end
      | _ => inr 2%Z                          (* expected one argument *)
      end
  | None =>
      match t with
      | TArg v =>
          match pos st with
          | convert :: pos' =>
              match convert v with
              | Some set => inl (mkPState (set (ns st)) pos' (extras st) None true)
              | None => inr 2%Z
              end
          | [] => inl (mkPState (ns st) [] true None false)
          end
      | TUnknown _ => inl (mkPState (ns st) (pos st) true None false)
      | TSep =>
          match pos st with
          | _ :: _ => inl st                  (* goes with the next positional *)
          | [] =>
              if slack st then inl st         (* goes with the last positional *)
              else inl (mkPState (ns st) [] true None false)
          end
      | TFlag o act explicit =>
          match resolve_flag o act explicit with
          | None => inr 2%Z
          | Some (acts, Store convert, None) =>
              inl (mkPState (ns st) (pos st) (extras st) (Some (acts, convert)) false)
          | Some (acts, final, glued) =>
              match take_actions acts (ns st) with
              | None => inr 0%Z
              | Some ns' =>
                  match final, glued with
                  | Store convert, Some v =>
                      match convert v with
                      | Some set =>
                          inl (mkPState (set ns') (pos st) (extras st) None false)
                      | None => inr 2%Z
                      end
                  | Store _, None => inr 2%Z
                  | StoreConst set, _ =>
                      inl (mkPState (set ns') (pos st) (extras st) None false)
                  | HelpAction, _ => inr 0%Z
                  end
              end
          end
      end
  end.

(** The end of the command line. *)
Definition finalize (st : PState) : Parsed A :=
  match pending st, pos st, extras st with
  | Some _, _, _ => SystemExit 2              (* expected one argument *)
  | None, _ :: _, _ => SystemExit 2           (* arguments are required *)
  | None, [], true => SystemExit 2            (* unrecognized arguments *)
  | None, [], false => Namespace (ns st)
  end.

(** The second pass. *)
Fixpoint consume (toks : list Tok) (st : PState) : Parsed A :=
  match toks with
  | [] => finalize st
  | t :: rest =>
      match step t st with
      | inl st' => consume rest st'
      | inr status => SystemExit status
      end
  end.

Definition parse_args (argv : list string) : Parsed A :=
  match tokenize argv with
  | None => SystemExit 2                       (* ambiguous option *)
  | Some toks => consume toks (mkPState (defaults p) (positionals p) false None false)
  end.

(** *** What a command line says, word by word *)

Definition is_unknown (t : Tok) : bool :=
  match t with TUnknown _ => true | _ => false end.

(** The words in front of [--]. *)
Fixpoint before_separator (argv : list string) : list string :=
  match argv with
  | [] => []
  | s :: rest => if String.eqb s "--" then [] else s :: before_separator rest
  end.

(** A word that has the form of a flag and is none of the parser's, not
    even abbreviated. *)
Definition is_unknown_flag (s : string) : bool :=
  match classify s with
  | COne (TUnknown _) => true
  | _ => false
  end.

Definition has_unknown_flag (argv : list string) : bool :=
  existsb is_unknown_flag (before_separator argv).

(** A flag that takes its value from the next word. *)
Definition awaits_value (t : Tok) : bool :=
  match t with
  | TFlag o act explicit =>
      match resolve_flag o act explicit with
      | Some (_, Store _, None) => true
      | _ => false
      end
  | _ => false
  end.

(** The arguments that are not the value of a flag: the ones that fill the
    positionals, in order. *)
Fixpoint free_args (awaited : bool) (toks : list Tok) : list string :=
  match toks with
  | [] => []
  | TArg v :: rest =>
      if awaited then free_args false rest else v :: free_args false rest
  | t :: rest => free_args (awaits_value t) rest
  end.

(** The values the command line gives to the flag [name]. *)
Fixpoint values_of (name : string) (awaited : bool) (toks : list Tok) : list string :=
  match toks with
  | [] => []
  | TArg v :: rest =>
      if awaited then v :: values_of name false rest else values_of name false rest
  | TFlag o act explicit :: rest =>
      if String.eqb o name then
        match act, explicit with
        | Store _, Some v => v :: values_of name false rest
        | Store _, None => values_of name true rest
        | _, _ => values_of name false rest
        end
      else values_of name false rest
  | TUnknown _ :: rest => values_of name false rest
  | TSep :: rest => values_of name false rest
  end.

(** The word the command line gives for the first positional. *)
Definition first_positional (argv : list string) : option string :=
  match tokenize argv with
  | Some toks => hd_error (free_args false toks)
  | None => None
  end.

(** The words the command line gives as values of the flag [name]. *)
Definition flag_values (name : string) (argv : list string) : list string :=
  match tokenize argv with
  | Some toks => values_of name false toks
  | None => []
  end.

End Parser.

End Argparse.

(** ** [relay_control.py]: the cycle driver *)

Module Control.

Record Args := {
  on_time : pynum;
  off_time : pynum;
  cycles : Z;
  initial_state : string;
  active_high : bool
}.

Definition relay_pin : Z := 7.

Definition set_on_time (d : pynum) (a : Args) : Args :=
  {| on_time := d; off_time := off_time a; cycles := cycles a;
     initial_state := initial_state a; active_high := active_high a |}.
Definition set_off_time (d : pynum) (a : Args) : Args :=
  {| on_time := on_time a; off_time := d; cycles := cycles a;
     initial_state := initial_state a; active_high := active_high a |}.
Definition set_cycles (n : Z) (a : Args) : Args :=
  {| on_time := on_time a; off_time := off_time a; cycles := n;
     initial_state := initial_state a; active_high := active_high a |}.
Definition set_initial_state (s : string) (a : Args) : Args :=
  {| on_time := on_time a; off_time := off_time a; cycles := cycles a;
     initial_state := s; active_high := active_high a |}.
Definition set_active_high (b : bool) (a : Args) : Args :=
  {| on_time := on_time a; off_time := off_time a; cycles := cycles a;
     initial_state := initial_state a; active_high := b |}.

Definition state_choices : list string := ["on"; "off"]%string.

Definition in_choices (v : string) : bool :=
  existsb (String.eqb v) state_choices.

(** Lines 31-41: the parser, with the [-h] every parser gets. *)
Definition parser (b : Builtins) : Argparse.ArgumentParser Args :=
  Argparse.mkParser
    [ Argparse.mkOptional ["-h"; "--help"]%string (Argparse.HelpAction _);
      Argparse.mkOptional ["--on-time"]%string
        (Argparse.Store (fun s => option_map (fun f => set_on_time (PyFloat f)) (float b s)));
      Argparse.mkOptional ["--off-time"]%string
        (Argparse.Store (fun s => option_map (fun f => set_off_time (PyFloat f)) (float b s)));
      Argparse.mkOptional ["--cycles"]%string
        (Argparse.Store (fun s => option_map set_cycles (int b s)));
      Argparse.mkOptional ["--initial-state"]%string
        (Argparse.Store (fun s => if in_choices s then Some (set_initial_state s) else None));
      Argparse.mkOptional ["--active-high"]%string
        (Argparse.StoreConst (set_active_high true));
      Argparse.mkOptional ["--active-low"]%string
        (Argparse.StoreConst (set_active_high false)) ]
    []
    {| on_time := PyFloat float_two; off_time := PyFloat float_two; cycles := 0;
       initial_state := "off"; active_high := true |}.

(** Line 43. *)
Definition parse_args (b : Builtins) (argv : list string) : Argparse.Parsed Args :=
  Argparse.parse_args (parser b) argv.

(** Lines 46-51: [(RELAY_ON, RELAY_OFF)] for the configured polarity. *)
Definition relay_levels (active_high : bool) : Level * Level :=
  if active_high then (HIGH, LOW) else (LOW, HIGH).

Definition RELAY_ON (active_high : bool) : Level := fst (relay_levels active_high).
Definition RELAY_OFF (active_high : bool) : Level := snd (relay_levels active_high).

(** Line 57: [RELAY_ON if args.initial_state == 'on' else RELAY_OFF]. *)
Definition initial_level (initial_state : string) (active_high : bool) : Level :=
  if String.eqb initial_state "on" then RELAY_ON active_high
  else RELAY_OFF active_high.

(** ['HIGH' if v == GPIO.HIGH else 'LOW'] *)
Definition shown (v : Level) : Level :=
  if Level_eqb v HIGH then HIGH else LOW.

(** Line 70: the loop condition. *)
Definition loop_cond (cycles cycle_count : Z) : bool :=
  (cycles =? 0)%Z || (cycle_count <? cycles)%Z.

(** Lines 71-83: one pass through the loop body; the new [cycle_count]. *)
Definition loop_body (a : Args) (cycle_count : Z) : M Z :=
  GPIO_output relay_pin (RELAY_ON (active_high a)) ;;
  print (MsgRelayOn relay_pin (shown (RELAY_ON (active_high a)))) ;;
  time_sleep (on_time a) ;;
  GPIO_output relay_pin (RELAY_OFF (active_high a)) ;;
  print (MsgRelayOff relay_pin (shown (RELAY_OFF (active_high a)))) ;;
  time_sleep (off_time a) ;;
  if (0 <? cycles a)%Z then
    print (MsgCompleted (cycle_count + 1) (cycles a)) ;;
    ret (cycle_count + 1)%Z
  else ret cycle_count.

(** Lines 70-83: the [while] loop, one unit of fuel per iteration. *)
Fixpoint while_loop (fuel : nat) (a : Args) (cycle_count : Z) : M unit :=
  if loop_cond (cycles a) cycle_count then
    match fuel with
    | O => out_of_fuel
    | S fuel' =>
        cycle_count' <- loop_body a cycle_count ;;
        while_loop fuel' a cycle_count'
    end
  else ret tt.

(** Lines 88-92: the [finally] block. *)
Definition cleanup_handler (a : Args) : M unit :=
  GPIO_output relay_pin (RELAY_OFF (active_high a)) ;;
  print MsgCleaningUp ;;
  GPIO_cleanup.

(** Lines 45-92: [main] once the arguments are parsed. *)
Definition script (fuel : nat) (a : Args) : M unit :=
  GPIO_setmode ;;
  GPIO_setup relay_pin (Some (initial_level (initial_state a) (active_high a))) ;;
  print MsgBanner ;;
  print (MsgPin relay_pin) ;;
  print (MsgPolarity (active_high a)) ;;
  print (MsgOnTime (on_time a)) ;;
  print (MsgOffTime (off_time a)) ;;
  print (MsgCycles (if (cycles a =? 0)%Z then None else Some (cycles a))) ;;
  print MsgPressCtrlC ;;
  try_finally
    (try_except_KeyboardInterrupt
       (while_loop fuel a 0)
       (print MsgStopped))
    (cleanup_handler a).

(** [main()] run as the program, on the words of the command line.
    [parse_args] leaves by [SystemExit] before line 45 is reached. *)
Definition main (b : Builtins) (w : World) (fuel : nat) (argv : list string)
  : Process :=
  match parse_args b argv with
  | Argparse.Namespace a => run_main w (script fuel a)
  | Argparse.SystemExit status =>
      mkProcess [Print (if (status =? 0)%Z then MsgHelp else MsgUsage)]
                (Exited status)
  end.

End Control.

(** ** [relay_switch.py]: the one-shot driver *)

Module Switch.

Record Args := {
  state : string;
  active_high : bool;
  hold_time : pynum
}.

Definition relay_pin : Z := 7.

Definition set_state_arg (s : string) (a : Args) : Args :=
  {| state := s; active_high := active_high a; hold_time := hold_time a |}.
Definition set_active_high (b : bool) (a : Args) : Args :=
  {| state := state a; active_high := b; hold_time := hold_time a |}.
Definition set_hold_time (d : pynum) (a : Args) : Args :=
  {| state := state a; active_high := active_high a; hold_time := d |}.

Definition state_choices : list string := ["on"; "off"]%string.

Definition in_choices (v : string) : bool :=
  existsb (String.eqb v) state_choices.

(** Lines 32-40: the parser, with the [-h] every parser gets.  [state] is
    a required positional: the value the namespace starts with is never
    seen by the script. *)
Definition parser (b : Builtins) : Argparse.ArgumentParser Args :=
  Argparse.mkParser
    [ Argparse.mkOptional ["-h"; "--help"]%string (Argparse.HelpAction _);
      Argparse.mkOptional ["--active-high"]%string
        (Argparse.StoreConst (set_active_high true));
      Argparse.mkOptional ["--active-low"]%string
        (Argparse.StoreConst (set_active_high false));
      Argparse.mkOptional ["--hold-time"]%string
        (Argparse.Store (fun s => option_map (fun f => set_hold_time (PyFloat f)) (float b s))) ]
    [ fun s => if in_choices s then Some (set_state_arg s) else None ]
    {| state := ""; active_high := true; hold_time := PyInt 0 |}.

(** Line 42. *)
Definition parse_args (b : Builtins) (argv : list string) : Argparse.Parsed Args :=
  Argparse.parse_args (parser b) argv.

(** Lines 45-50. *)
Definition relay_levels (active_high : bool) : Level * Level :=
  if active_high then (HIGH, LOW) else (LOW, HIGH).

Definition RELAY_ON (active_high : bool) : Level := fst (relay_levels active_high).
Definition RELAY_OFF (active_high : bool) : Level := snd (relay_levels active_high).

Definition shown (v : Level) : Level :=
  if Level_eqb v HIGH then HIGH else LOW.

(** The level lines 57-62 write. *)
Definition requested_level (state : string) (active_high : bool) : Level :=
  if String.eqb state "on" then RELAY_ON active_high else RELAY_OFF active_high.

(** Lines 57-62. *)
Definition set_state (a : Args) : M unit :=
  if String.eqb (state a) "on" then
    GPIO_output relay_pin (RELAY_ON (active_high a)) ;;
    print (MsgRelayOn relay_pin (shown (RELAY_ON (active_high a))))
  else
    GPIO_output relay_pin (RELAY_OFF (active_high a)) ;;
    print (MsgRelayOff relay_pin (shown (RELAY_OFF (active_high a)))).

(** Lines 69-70: [while True: time.sleep(1)]. *)
Fixpoint sleep_forever (fuel : nat) : M unit :=
  match fuel with
  | O => out_of_fuel
  | S fuel' => time_sleep (PyInt 1) ;; sleep_forever fuel'
  end.

(** Lines 64-70. *)
Definition hold (fuel : nat) (a : Args) : M unit :=
  if py_gt0 (hold_time a) then
    print (MsgHolding (hold_time a)) ;;
    time_sleep (hold_time a)
  else if py_eq0 (hold_time a) then
    print MsgPressCtrlCCleanup ;;
    sleep_forever fuel
  else ret tt.

(** Lines 75-78: the [finally] block. *)
Definition cleanup_handler : M unit :=
  GPIO_cleanup ;;
  print MsgCleanedUp.

(** Lines 44-78: [main] once the arguments are parsed. *)
Definition script (fuel : nat) (a : Args) : M unit :=
  GPIO_setmode ;;
  GPIO_setup relay_pin None ;;
  try_finally
    (try_except_KeyboardInterrupt
       (set_state a ;; hold fuel a)
       (print MsgStopped))
    cleanup_handler.

(** [main()] run as the program, on the words of the command line.
    [parse_args] leaves by [SystemExit] before line 44 is reached. *)
Definition main (b : Builtins) (w : World) (fuel : nat) (argv : list string)
  : Process :=
  match parse_args b argv with
  | Argparse.Namespace a => run_main w (script fuel a)
  | Argparse.SystemExit status =>
      mkProcess [Print (if (status =? 0)%Z then MsgHelp else MsgUsage)]
                (Exited status)
  end.

End Switch.

(** ** The vocabulary of the specification *)

Inductive LogicalState := On | Off.
Inductive Polarity := ActiveHigh | ActiveLow.

(** The specification's resolver, in its own words: [On] is [High] if
    [ActiveHigh] else [Low]; [Off] is the complement. *)
Definition resolve (s : LogicalState) (p : Polarity) : Level :=
  let on_level := match p with ActiveHigh => HIGH | ActiveLow => LOW end in
  match s with
  | On => on_level
  | Off => complement on_level
  end.

(** How the command line spells them. *)
Definition state_word (s : LogicalState) : string :=
  match s with On => "on" | Off => "off" end.

Definition polarity_flag (p : Polarity) : bool :=
  match p with ActiveHigh => true | ActiveLow => false end.

(** ** Sample worlds and converters, to run the scripts on *)

(** Whether the size of [d] is at most 2^32. *)
Definition at_most_2_32 (d : pynum) : bool :=
  match d with
  | PyInt n => (n <=? 2 ^ 32)%Z
  | PyFloat (S754_zero _) => true
  | PyFloat (S754_finite _ m e) =>
      if (0 <=? e)%Z then (Z.pos m * 2 ^ e <=? 2 ^ 32)%Z
      else (Z.pos m <=? 2 ^ 32 * 2 ^ (- e))%Z
  | PyFloat _ => false
  end.

(** A [time.sleep] to run the scripts with.  CPython refuses NaN and a
    number below zero (ValueError), and a number so large that its
    nanoseconds, added to the monotonic clock, leave 63 bits
    (OverflowError, or OSError from the kernel): where that bound lies
    depends on the clock.  This sample takes the durations from 0 to 2^32
    seconds, for which a clock has room for more than a century, and
    refuses the rest. *)
Definition sleepable (d : pynum) : bool :=
  (py_gt0 d || py_eq0 d) && at_most_2_32 d.

(** Nobody presses CTRL+C. *)
Definition calm : World :=
  {| interrupt_at := fun _ => false;
     sleep_accepts := sleepable |}.

(** CTRL+C arrives during sleep number [k]. *)
Definition ctrl_c_at (k : nat) : World :=
  {| interrupt_at := Nat.eqb k;
     sleep_accepts := sleepable |}.

(** A converter that knows a few literals. *)
Definition sample_float (s : string) : option spec_float :=
  if String.eqb s "3" then Some (S754_finite false 3 0)
  else if String.eqb s "0.5" then Some (S754_finite false 1 (-1))
  else if String.eqb s "-1" then Some (S754_finite true 1 0)
  else None.

Definition sample_int (s : string) : option Z :=
  if String.eqb s "2" then Some 2%Z
  else if String.eqb s "0" then Some 0%Z
  else if String.eqb s "-1" then Some (-1)%Z
  else None.

Definition sample_builtins : Builtins :=
  {| float := sample_float; int := sample_int |}.

(** * Vocabulary of the proofs *)

(** A piece of program that only calls the driver and prints. *)
Definition straight (l : list Event) (m : M unit) : Prop :=
  forall w k, m w k = mkRun l k (Normal tt).

(** The process a protected body makes: [header] came before the [try],
    [lh] is what the handler does, [lf] what the [finally] block does. *)
Definition finish (header lh lf : list Event) (r : Run unit) : Process :=
  match result r with
  | Normal _ => mkProcess (header ++ log r ++ lf) (Exited 0)
  | Raise KeyboardInterrupt => mkProcess (header ++ log r ++ lh ++ lf) (Exited 0)
  | Raise SleepError => mkProcess (header ++ log r ++ lf) (Exited 1)
  | Unfinished => mkProcess (header ++ log r) Running
  end.

(** A property of every event a piece of program produces. *)
Definition produces {A} (P : Event -> Prop) (m : M A) : Prop :=
  forall w k, Forall P (log (m w k)).

Definition not_a_write (e : Event) : Prop := is_write e = false.

Definition not_a_cleanup (e : Event) : Prop := is_cleanup e = false.

(** A sleep CTRL+C cut short. *)
Definition interrupted (e : Event) : bool :=
  match e with Sleep _ Interrupted => true | _ => false end.


(** *** The one-shot driver, piece by piece *)

(** What comes before the [try], what the handler does, what the [finally]
    block does. *)
Definition switch_header : list Event := [Setmode; Setup Switch.relay_pin None].
Definition switch_on_interrupt : list Event := [Print MsgStopped].
Definition switch_on_exit : list Event := [Cleanup; Print MsgCleanedUp].

(** Lines 56-70, the body of the [try]. *)
Definition switch_body (fuel : nat) (a : Switch.Args) : M unit :=
  (Switch.set_state a ;; Switch.hold fuel a)%run.

(** The line lines 59 or 62 print. *)
Definition switch_said (a : Switch.Args) : Msg :=
  if String.eqb (Switch.state a) "on"
  then MsgRelayOn Switch.relay_pin (Switch.shown (Switch.RELAY_ON (Switch.active_high a)))
  else MsgRelayOff Switch.relay_pin (Switch.shown (Switch.RELAY_OFF (Switch.active_high a))).

(** [-1.0] and [3.0] *)
Definition minus_one : pynum := PyFloat (S754_finite true 1 0).
Definition three : pynum := PyFloat (S754_finite false 3 0).

(** *** The cycle driver, piece by piece *)

(** What comes before the [try], what the handler does, what the [finally]
    block does. *)
Definition control_header (a : Control.Args) : list Event :=
  [Setmode;
   Setup Control.relay_pin
         (Some (Control.initial_level (Control.initial_state a) (Control.active_high a)));
   Print MsgBanner;
   Print (MsgPin Control.relay_pin);
   Print (MsgPolarity (Control.active_high a));
   Print (MsgOnTime (Control.on_time a));
   Print (MsgOffTime (Control.off_time a));
   Print (MsgCycles (if (Control.cycles a =? 0)%Z then None else Some (Control.cycles a)));
   Print MsgPressCtrlC].
Definition control_on_interrupt : list Event := [Print MsgStopped].
Definition control_on_exit (a : Control.Args) : list Event :=
  [Output Control.relay_pin (Control.RELAY_OFF (Control.active_high a));
   Print MsgCleaningUp; Cleanup].


(** *** Interrupts and samples *)

(** A run that CTRL+C ended stops right at the sleep it cut short, and no
    other run has such a sleep. *)
Definition well_ended {A} (r : Run A) : Prop :=
  match result r with
  | Raise KeyboardInterrupt =>
      exists pre d, log r = pre ++ [Sleep d Interrupted]
                    /\ existsb interrupted pre = false
  | _ => existsb interrupted (log r) = false
  end.

Definition interruptible {A} (m : M A) : Prop :=
  forall w k, well_ended (m w k).

Definition half_second : pynum := PyFloat (S754_finite false 1 (-1)).

(** [--cycles 2 --on-time 0.5] *)
Definition two_cycles : Control.Args :=
  {| Control.on_time := half_second;
     Control.off_time := PyFloat float_two;
     Control.cycles := 2;
     Control.initial_state := "off";
     Control.active_high := true |}.

(** no flags at all *)
Definition endless : Control.Args :=
  {| Control.on_time := PyFloat float_two;
     Control.off_time := PyFloat float_two;
     Control.cycles := 0;
     Control.initial_state := "off";
     Control.active_high := true |}.

(** *** Either script *)

Inductive Script :=
| CycleDriver (a : Control.Args)   (* relay_control.py with these arguments *)
| OneShot (a : Switch.Args).       (* relay_switch.py with these arguments *)

Definition run_script (w : World) (fuel : nat) (s : Script) : Process :=
  match s with
  | CycleDriver a => run_main w (Control.script fuel a)
  | OneShot a => run_main w (Switch.script fuel a)
  end.

(** What the [finally] block of the script does. *)
Definition cleanup_events (s : Script) : list Event :=
  match s with
  | CycleDriver a => control_on_exit a
  | OneShot _ => switch_on_exit
  end.

(** The Off-level of the script's polarity. *)
Definition off_level (s : Script) : Level :=
  match s with
  | CycleDriver a => Control.RELAY_OFF (Control.active_high a)
  | OneShot a => Switch.RELAY_OFF (Switch.active_high a)
  end.


(** [relay_switch.py on --hold-time 3] *)
Definition on_for_three : Switch.Args :=
  {| Switch.state := "on"; Switch.active_high := true; Switch.hold_time := three |}.

(** *** The parser's second pass, seen from outside *)

Module ArgparseView.
Import Argparse.

Section Parser.

Variable A : Type.
Variable p : ArgumentParser A.

(** [parse_args] came back with a namespace. *)
Definition accepted (r : Parsed A) : Prop := exists a, r = Namespace a.

Definition waiting (st : PState A) : bool :=
  match pending st with Some _ => true | None => false end.

(** The flag [name] is a [Store] with this conversion. *)
Definition names (name : string) (convert : string -> option (A -> A))
           (t : Tok A) : Prop :=
  match t with
  | TFlag o act _ => o = name -> act = Store convert
  | _ => True
  end.

Definition waits_for (convert : string -> option (A -> A)) (st : PState A) : Prop :=
  exists acts, pending st = Some (acts, convert).

(** The flags of the first pass are flags of the parser. *)
Definition registered (t : Tok A) : Prop :=
  match t with
  | TFlag o act _ => In (o, act) (option_string_actions p)
  | _ => True
  end.

End Parser.

End ArgparseView.

(** *** Either program, on its command line *)

Inductive Program := relay_control | relay_switch.

Definition run_program (b : Builtins) (w : World) (fuel : nat)
           (prog : Program) (argv : list string) : Process :=
  match prog with
  | relay_control => Control.main b w fuel argv
  | relay_switch => Switch.main b w fuel argv
  end.

(** The command line has a flag the program's parser does not know. *)
Definition unknown_flag (b : Builtins) (prog : Program) (argv : list string) : bool :=
  match prog with
  | relay_control => Argparse.has_unknown_flag (Control.parser b) argv
  | relay_switch => Argparse.has_unknown_flag (Switch.parser b) argv
  end.

(** The command line gives a state that is neither [on] nor [off]: as a
    value of [--initial-state] for the cycle driver, as the positional
    [state] for the one-shot driver. *)
Definition invalid_state_value (b : Builtins) (prog : Program) (argv : list string)
  : bool :=
  match prog with
  | relay_control =>
      existsb (fun v => negb (Control.in_choices v))
              (Argparse.flag_values (Control.parser b) "--initial-state" argv)
  | relay_switch =>
      match Argparse.first_positional (Switch.parser b) argv with
      | Some v => negb (Switch.in_choices v)
      | None => false
      end
  end.

(** *** Errors and counters *)

(** A sleep [time.sleep] refused. *)
Definition refused (e : Event) : bool :=
  match e with Sleep _ Refused => true | _ => false end.

(** A run that an exception of [time.sleep] ended has a refused sleep, and
    no other run has one. *)
Definition error_ended {A} (r : Run A) : Prop :=
  existsb refused (log r)
  = match result r with Raise SleepError => true | _ => false end.

Definition refusable {A} (m : M A) : Prop :=
  forall w k, error_ended (m w k).


(** [--cycles 2 --on-time -1] *)
Definition bad_on_time : Control.Args :=
  {| Control.on_time := minus_one;
     Control.off_time := PyFloat float_two;
     Control.cycles := 2;
     Control.initial_state := "off";
     Control.active_high := true |}.

(** [relay_switch.py off --active-low] *)
Definition off_forever : Switch.Args :=
  {| Switch.state := "off"; Switch.active_high := false; Switch.hold_time := PyInt 0 |}.

(** The "Completed cycle {count} of {total}" lines of a trace, as pairs. *)
Fixpoint completed_lines (t : list Event) : list (Z * Z) :=
  match t with
  | [] => []
  | Print (MsgCompleted count total) :: t' => (count, total) :: completed_lines t'
  | _ :: t' => completed_lines t'
  end.

(** [n] times on, then off. *)
Fixpoint on_off (n : nat) (on off : Level) : list Level :=
  match n with
  | O => []
  | S n' => on :: off :: on_off n' on off
  end.

(** *** What the parser's actions keep *)

Module ArgparseKeeps.
Import Argparse.

Section Parser.

Variable A : Type.
Variable p : ArgumentParser A.
Variable P : A -> Prop.

(** The action never breaks [P]. *)
Definition keeps (act : Action A) : Prop :=
  match act with
  | Store convert => forall v set ns, convert v = Some set -> P ns -> P (set ns)
  | StoreConst set => forall ns, P ns -> P (set ns)
  | HelpAction _ => True
  end.

(** The positional makes [P] true. *)
Definition settles (convert : string -> option (A -> A)) : Prop :=
  forall v set ns, convert v = Some set -> P (set ns).

(** What the second pass keeps true of its state: the positionals left
    are the last ones of the parser, [P] holds once none is left, and
    the flag that waits for its value keeps [P]. *)
Definition sound_state (st : PState A) : Prop :=
  (exists filled, positionals p = filled ++ pos st)
  /\ (pos st = [] -> P (ns st))
  /\ (forall acts convert,
         pending st = Some (acts, convert) ->
         Forall keeps acts /\ keeps (Store convert)).

Definition sound_token (t : Tok A) : Prop :=
  match t with
  | TFlag _ act _ => keeps act
  | _ => True
  end.

(** The words of the second pass, as far as they go: the state reached, or
    the exit status. *)
Fixpoint advance (toks : list (Tok A)) (st : PState A) : PState A + Z :=
  match toks with
  | [] => inl st
  | t :: rest =>
      match step p t st with
      | inl st' => advance rest st'
      | inr status => inr status
      end
  end.

End Parser.

End ArgparseKeeps.

(** [--active-high --cycles 2] *)
Definition high_two : list string := ["--active-high"; "--cycles"; "2"]%string.

(** An event that, if it touches the hardware at all, is a write to pin 7. *)
Definition writes_pin_7_only (e : Event) : Prop :=
  hardware e = false \/ exists v, e = Output 7 v.

(** A sleep that lasted its full duration. *)
Definition elapsed (e : Event) : bool :=
  match e with Sleep _ Elapsed => true | _ => false end.

(** Pass number [i] through the loop when nothing disturbs it, with what it
    prints. *)
Definition control_pass (a : Control.Args) (i : Z) : list Event :=
  [Output Control.relay_pin (Control.RELAY_ON (Control.active_high a));
   Print (MsgRelayOn Control.relay_pin (Control.shown (Control.RELAY_ON (Control.active_high a))));
   Sleep (Control.on_time a) Elapsed;
   Output Control.relay_pin (Control.RELAY_OFF (Control.active_high a));
   Print (MsgRelayOff Control.relay_pin (Control.shown (Control.RELAY_OFF (Control.active_high a))));
   Sleep (Control.off_time a) Elapsed]
  ++ (if (0 <? Control.cycles a)%Z
      then [Print (MsgCompleted i (Control.cycles a))]
      else []).


(** * Facts *)

(** ** Numbers *)

Lemma py_lt0_gt0 d : py_lt0 d = true -> py_gt0 d = false.
Proof.
  destruct d as [z|f]; simpl.
  - intros H. apply Z.ltb_lt in H. apply Z.ltb_ge. lia.
  - unfold SFltb.
    destruct f as [s|s| |s m e]; simpl; try discriminate;
      destruct s; simpl; congruence.
Qed.

Lemma py_lt0_eq0 d : py_lt0 d = true -> py_eq0 d = false.
Proof.
  destruct d as [z|f]; simpl.
  - intros H. apply Z.ltb_lt in H. apply Z.eqb_neq. lia.
  - unfold SFltb, SFeqb.
    destruct f as [s|s| |s m e]; simpl; try discriminate;
      destruct s; simpl; congruence.
Qed.

(** ** Traces *)

Lemma writes_app t1 t2 : writes (t1 ++ t2) = writes t1 ++ writes t2.
Proof.
  induction t1 as [|e t1 IH]; simpl; [reflexivity|].
  destruct e; simpl; rewrite ?IH; reflexivity.
Qed.

Lemma last_write_snoc t pin v : last_write (t ++ [Output pin v]) = Some v.
Proof.
  unfold last_write. rewrite writes_app, map_app. simpl.
  apply last_last.
Qed.

Lemma last_write_quiet_tail t t' :
  writes t' = [] -> last_write (t ++ t') = last_write t.
Proof.
  intros H. unfold last_write. rewrite writes_app, H, app_nil_r. reflexivity.
Qed.

(** ** Laws of runs *)

Lemma straight_print m : straight [Print m] (print m).
Proof. intros w k. reflexivity. Qed.

Lemma bind_emit {A} e (m : M A) w k :
  (emit e ;; m) w k = mkRun (e :: log (m w k)) (naps (m w k)) (result (m w k)).
Proof. reflexivity. Qed.

Lemma bind_straight {A} l (m : M unit) (f : M A) w k :
  straight l m ->
  (m ;; f) w k = mkRun (l ++ log (f w k)) (naps (f w k)) (result (f w k)).
Proof. intros H. unfold bind. cbv zeta. rewrite !H. reflexivity. Qed.

(** [try: body except KeyboardInterrupt: handler finally: final], by the
    way the body ends. *)
Lemma protected_run (body handler final : M unit) lh lf w k :
  straight lh handler -> straight lf final ->
  try_finally (try_except_KeyboardInterrupt body handler) final w k
  = match result (body w k) with
    | Normal u => mkRun (log (body w k) ++ lf) (naps (body w k)) (Normal u)
    | Raise KeyboardInterrupt =>
        mkRun ((log (body w k) ++ lh) ++ lf) (naps (body w k)) (Normal tt)
    | Raise SleepError =>
        mkRun (log (body w k) ++ lf) (naps (body w k)) (Raise SleepError)
    | Unfinished => body w k
    end.
Proof.
  intros Hh Hf. unfold try_finally, try_except_KeyboardInterrupt.
  destruct (result (body w k)) as [u|[|]|] eqn:E; simpl; rewrite ?E; simpl;
    rewrite ?Hh, ?Hf; simpl; rewrite ?E; try reflexivity.
Qed.

Lemma finish_protected header lh lf (body handler final : M unit) w k :
  straight lh handler -> straight lf final ->
  mkProcess
    (header ++ log (try_finally (try_except_KeyboardInterrupt body handler) final w k))
    match result (try_finally (try_except_KeyboardInterrupt body handler) final w k) with
    | Normal _ => Exited 0
    | Raise _ => Exited 1
    | Unfinished => Running
    end
  = finish header lh lf (body w k).
Proof.
  intros Hh Hf. rewrite (protected_run _ _ _ Hh Hf).
  unfold finish.
  destruct (result (body w k)) as [u|[|]|] eqn:E; cbn [log naps result];
    rewrite ?E; rewrite <- ?app_assoc; reflexivity.
Qed.

Lemma produces_ret {A} P (a : A) : produces P (ret a).
Proof. intros w k. constructor. Qed.

Lemma produces_out_of_fuel {A} P : produces P (@out_of_fuel A).
Proof. intros w k. constructor. Qed.

Lemma produces_emit (P : Event -> Prop) e : P e -> produces P (emit e).
Proof. intros H w k. repeat constructor. exact H. Qed.

Lemma produces_sleep (P : Event -> Prop) d :
  (forall how, P (Sleep d how)) -> produces P (time_sleep d).
Proof. intros H w k. repeat constructor. apply H. Qed.

Lemma produces_bind {A B} P (m : M A) (f : A -> M B) :
  produces P m -> (forall a, produces P (f a)) -> produces P (bind m f).
Proof.
  intros Hm Hf w k. unfold bind. cbv zeta.
  destruct (result (m w k)); cbn [log]; try apply Hm.
  apply Forall_app. split; [apply Hm | apply Hf].
Qed.

(** ** The one-shot driver *)

Module SwitchFacts.
Import Switch.

Lemma switch_cleanup_straight : straight switch_on_exit cleanup_handler.
Proof. intros w k. reflexivity. Qed.

Lemma switch_script_process fuel a w :
  run_main w (script fuel a)
  = finish switch_header switch_on_interrupt switch_on_exit (switch_body fuel a w 0%nat).
Proof.
  unfold script, run_main, GPIO_setmode, GPIO_setup, switch_body.
  rewrite !bind_emit. cbn [log naps result].
  apply (@finish_protected switch_header); [apply straight_print | apply switch_cleanup_straight].
Qed.

Lemma set_state_straight a :
  straight [Output relay_pin (requested_level (state a) (active_high a)); Print (switch_said a)]
           (set_state a).
Proof.
  unfold set_state, requested_level, switch_said.
  destruct (String.eqb (state a) "on"); intros w k; reflexivity.
Qed.

Lemma body_run fuel a w k :
  switch_body fuel a w k
  = mkRun ([Output relay_pin (requested_level (state a) (active_high a));
            Print (switch_said a)] ++ log (hold fuel a w k))
          (naps (hold fuel a w k)) (result (hold fuel a w k)).
Proof. apply bind_straight, set_state_straight. Qed.

Lemma sleep_forever_no_write fuel : produces not_a_write (sleep_forever fuel).
Proof.
  induction fuel as [|fuel IH]; simpl.
  - apply produces_out_of_fuel.
  - apply produces_bind; [apply produces_sleep; reflexivity | intros _; exact IH].
Qed.

Lemma hold_no_write fuel a : produces not_a_write (hold fuel a).
Proof.
  unfold hold. destruct (py_gt0 _); [|destruct (py_eq0 _)].
  - apply produces_bind; [apply produces_emit; reflexivity|].
    intros _. apply produces_sleep; reflexivity.
  - apply produces_bind; [apply produces_emit; reflexivity|].
    intros _. apply sleep_forever_no_write.
  - apply produces_ret.
Qed.

Lemma no_write_writes t : Forall not_a_write t -> writes t = [].
Proof.
  induction 1 as [|e t He _ IH]; [reflexivity|].
  destruct e; simpl; try exact IH. discriminate He.
Qed.

Lemma hold_writes fuel a w k : writes (log (hold fuel a w k)) = [].
Proof. apply no_write_writes, hold_no_write. Qed.

(** Whatever happens, the pin is written once. *)
Lemma script_writes fuel a w :
  writes (trace (run_main w (script fuel a)))
  = [requested_level (state a) (active_high a)].
Proof.
  rewrite switch_script_process, body_run. unfold finish. cbn [log result].
  destruct (result (hold fuel a w 0)) as [u|[|]|]; cbn [trace];
    rewrite !writes_app, hold_writes; reflexivity.
Qed.

End SwitchFacts.

Lemma requested_level_resolve s p :
  Switch.requested_level (state_word s) (polarity_flag p) = resolve s p.
Proof. destruct s, p; reflexivity. Qed.

(** ** The cycle driver *)

Module ControlFacts.
Import Control.

Lemma control_cleanup_straight a : straight (control_on_exit a) (cleanup_handler a).
Proof. intros w k. reflexivity. Qed.

Lemma control_script_process fuel a w :
  run_main w (script fuel a)
  = finish (control_header a) control_on_interrupt (control_on_exit a)
           (while_loop fuel a 0 w 0%nat).
Proof.
  unfold script, run_main, GPIO_setmode, GPIO_setup, print.
  rewrite !bind_emit. cbn [log naps result].
  apply (@finish_protected (control_header a));
    [apply straight_print | apply control_cleanup_straight].
Qed.


Lemma sleep_outcome_elapsed w k d :
  sleep_accepts w d = true -> interrupt_at w k = false ->
  sleep_outcome w k d = Elapsed.
Proof. intros H1 H2. unfold sleep_outcome. rewrite H1, H2. reflexivity. Qed.




Lemma while_loop_done fuel a c w k :
  loop_cond (cycles a) c = false ->
  while_loop fuel a c w k = mkRun [] k (Normal tt).
Proof. intros H. destruct fuel; simpl; rewrite H; reflexivity. Qed.

Lemma while_loop_step fuel a c w k :
  loop_cond (cycles a) c = true ->
  while_loop (S fuel) a c w k
  = (c' <- loop_body a c ;; while_loop fuel a c') w k.
Proof. intros H. simpl. rewrite H. reflexivity. Qed.

Section Undisturbed.

Variable a : Args.
Variable w : World.
Hypothesis on_ok : sleep_accepts w (on_time a) = true.
Hypothesis off_ok : sleep_accepts w (off_time a) = true.



End Undisturbed.

End ControlFacts.

(** ** Interrupts *)

Lemma interruptible_ret {A} (a : A) : interruptible (ret a).
Proof. intros w k. reflexivity. Qed.

Lemma interruptible_out_of_fuel {A} : interruptible (@out_of_fuel A).
Proof. intros w k. reflexivity. Qed.

Lemma interruptible_emit e : interrupted e = false -> interruptible (emit e).
Proof. intros H w k. unfold well_ended. simpl. rewrite H. reflexivity. Qed.

Lemma interruptible_sleep d : interruptible (time_sleep d).
Proof.
  intros w k. unfold well_ended, time_sleep. cbn [log result].
  destruct (sleep_outcome w k d); cbn; try reflexivity.
  exists [], d. split; reflexivity.
Qed.

Lemma interruptible_bind {A B} (m : M A) (f : A -> M B) :
  interruptible m -> (forall a, interruptible (f a)) -> interruptible (bind m f).
Proof.
  intros Hm Hf w k. specialize (Hm w k). unfold well_ended in Hm |- *.
  unfold bind. cbv zeta.
  destruct (result (m w k)) as [x|e|] eqn:E; cbn [log result]; try exact Hm.
  specialize (Hf x w (naps (m w k))). unfold well_ended in Hf.
  destruct (result (f x w (naps (m w k)))) as [y|[|]|];
    try (rewrite existsb_app, Hm, Hf; reflexivity).
  destruct Hf as (pre & d & Hlog & Hpre).
  exists (log (m w k) ++ pre), d. split.
  - rewrite Hlog, app_assoc. reflexivity.
  - rewrite existsb_app, Hm, Hpre. reflexivity.
Qed.

(** Where an interrupted sleep can stand in a list that has one only. *)
Lemma interrupted_split l1 x l2 pre y post :
  existsb interrupted l1 = false -> existsb interrupted l2 = false ->
  interrupted y = true ->
  l1 ++ x :: l2 = pre ++ y :: post ->
  post = l2.
Proof.
  intros H1 H2 Hy. revert pre.
  induction l1 as [|e l1 IH]; intros pre Heq.
  - destruct pre as [|e' pre]; cbn in Heq.
    + congruence.
    + injection Heq as _ Heq. subst l2.
      rewrite existsb_app in H2. cbn in H2. rewrite Hy in H2.
      rewrite orb_true_r in H2. discriminate.
  - cbn in H1. apply orb_false_iff in H1. destruct H1 as [He H1].
    destruct pre as [|e' pre]; cbn in Heq.
    + injection Heq as <- _. congruence.
    + injection Heq as _ Heq. eapply IH; eauto.
Qed.

Lemma no_interrupted_split l pre y post :
  existsb interrupted l = false -> interrupted y = true ->
  l <> pre ++ y :: post.
Proof.
  intros H Hy ->. rewrite existsb_app in H. cbn in H. rewrite Hy in H.
  rewrite orb_true_r in H. discriminate.
Qed.

(** After the sleep CTRL+C cut short come the handler and the [finally]
    block, nothing else, and the process exits with status 0. *)
Lemma finish_after_interrupt header lh lf (r : Run unit) pre d post :
  well_ended r ->
  existsb interrupted header = false ->
  existsb interrupted lh = false ->
  existsb interrupted lf = false ->
  trace (finish header lh lf r) = pre ++ Sleep d Interrupted :: post ->
  post = lh ++ lf /\ ending (finish header lh lf r) = Exited 0.
Proof.
  unfold well_ended, finish. intros Hr Hh Hlh Hlf.
  destruct (result r) as [u|[|]|]; cbn [trace ending]; intros Heq.
  - exfalso. revert Heq. apply no_interrupted_split; [|reflexivity].
    rewrite !existsb_app, Hh, Hr, Hlf. reflexivity.
  - destruct Hr as (p0 & d0 & Hlog & Hp0). split; [|reflexivity].
    rewrite Hlog in Heq.
    replace (header ++ (p0 ++ [Sleep d0 Interrupted]) ++ lh ++ lf)
      with ((header ++ p0) ++ Sleep d0 Interrupted :: (lh ++ lf)) in Heq
      by (rewrite <- !app_assoc; reflexivity).
    eapply interrupted_split with (y := Sleep d Interrupted);
      [| |reflexivity|exact Heq].
    + rewrite existsb_app, Hh, Hp0. reflexivity.
    + rewrite existsb_app, Hlh, Hlf. reflexivity.
  - exfalso. revert Heq. apply no_interrupted_split; [|reflexivity].
    rewrite !existsb_app, Hh, Hr, Hlf. reflexivity.
  - exfalso. revert Heq. apply no_interrupted_split; [|reflexivity].
    rewrite !existsb_app, Hh, Hr. reflexivity.
Qed.

Lemma control_loop_interruptible fuel a : forall c, interruptible (Control.while_loop fuel a c).
Proof.
  induction fuel as [|fuel IH]; intros c; simpl;
    destruct (Control.loop_cond _ _); try apply interruptible_ret.
  - apply interruptible_out_of_fuel.
  - apply interruptible_bind; [|exact IH].
    unfold Control.loop_body, GPIO_output, print.
    repeat (apply interruptible_bind;
            [first [apply interruptible_emit; reflexivity | apply interruptible_sleep]
            |intros _]).
    destruct (0 <? _)%Z; [|apply interruptible_ret].
    apply interruptible_bind; [apply interruptible_emit; reflexivity|].
    intros _. apply interruptible_ret.
Qed.

Lemma switch_sleep_forever_interruptible fuel : interruptible (Switch.sleep_forever fuel).
Proof.
  induction fuel as [|fuel IH]; simpl.
  - apply interruptible_out_of_fuel.
  - apply interruptible_bind; [apply interruptible_sleep | intros _; exact IH].
Qed.

Lemma switch_body_interruptible fuel a : interruptible (switch_body fuel a).
Proof.
  unfold switch_body. apply interruptible_bind.
  - unfold Switch.set_state, GPIO_output, print.
    destruct (String.eqb _ _);
      (apply interruptible_bind; [apply interruptible_emit; reflexivity|]);
      intros _; apply interruptible_emit; reflexivity.
  - intros _. unfold Switch.hold, print.
    destruct (py_gt0 _); [|destruct (py_eq0 _)].
    + apply interruptible_bind; [apply interruptible_emit; reflexivity|].
      intros _. apply interruptible_sleep.
    + apply interruptible_bind; [apply interruptible_emit; reflexivity|].
      intros _. apply switch_sleep_forever_interruptible.
    + apply interruptible_ret.
Qed.

Module ControlMore.
Import Control.

Lemma while_loop_ignores_initial_state s fuel a w :
  forall c k,
    while_loop fuel (set_initial_state s a) c w k = while_loop fuel a c w k.
Proof.
  induction fuel as [|fuel IH]; intros c k; [reflexivity|].
  cbn [while_loop]. change (cycles (set_initial_state s a)) with (cycles a).
  destruct (loop_cond (cycles a) c); [|reflexivity].
  change (loop_body (set_initial_state s a) c) with (loop_body a c).
  unfold bind. cbv zeta.
  destruct (result (loop_body a c w k)); try reflexivity.
  rewrite IH. reflexivity.
Qed.

Lemma loop_first_write fuel a c w k :
  loop_cond (cycles a) c = true ->
  exists l,
    log (while_loop (S fuel) a c w k)
    = Output relay_pin (RELAY_ON (active_high a)) :: l.
Proof.
  intros H. rewrite ControlFacts.while_loop_step by exact H.
  unfold bind at 1. cbv zeta.
  unfold loop_body, GPIO_output. rewrite bind_emit. cbn [log naps result].
  match goal with |- context [result ?r] => destruct (result r) end;
    cbn [log]; eexists; reflexivity.
Qed.

Lemma loop_no_cleanup fuel a : forall c, produces not_a_cleanup (while_loop fuel a c).
Proof.
  induction fuel as [|fuel IH]; intros c; simpl;
    destruct (loop_cond _ _); try apply produces_ret.
  - apply produces_out_of_fuel.
  - apply produces_bind; [|exact IH].
    unfold loop_body, GPIO_output, print.
    repeat (apply produces_bind;
            [first [apply produces_emit; reflexivity
                   |apply produces_sleep; reflexivity]
            |intros _]).
    destruct (0 <? _)%Z; [|apply produces_ret].
    apply produces_bind; [apply produces_emit; reflexivity|].
    intros _. apply produces_ret.
Qed.

End ControlMore.

Lemma switch_body_no_cleanup fuel a : produces not_a_cleanup (switch_body fuel a).
Proof.
  unfold switch_body. apply produces_bind.
  - unfold Switch.set_state, GPIO_output, print.
    destruct (String.eqb _ _);
      (apply produces_bind; [apply produces_emit; reflexivity|]);
      intros _; apply produces_emit; reflexivity.
  - intros _. unfold Switch.hold, print.
    destruct (py_gt0 _); [|destruct (py_eq0 _)].
    + apply produces_bind; [apply produces_emit; reflexivity|].
      intros _. apply produces_sleep; reflexivity.
    + apply produces_bind; [apply produces_emit; reflexivity|].
      intros _. induction fuel as [|fuel IH]; simpl.
      * apply produces_out_of_fuel.
      * apply produces_bind; [apply produces_sleep; reflexivity|].
        intros _. exact IH.
    + apply produces_ret.
Qed.

Lemma no_cleanup_filter t : Forall not_a_cleanup t -> filter is_cleanup t = [].
Proof.
  induction 1 as [|e t He _ IH]; [reflexivity|].
  cbn. rewrite He. exact IH.
Qed.

(** The cycle driver, however it comes to its end, calls [GPIO.cleanup()]
    once, last of all, and the last level it wrote before is the
    Off-level. *)
Lemma cycle_driver_ends_off a w fuel status :
  ending (run_main w (Control.script fuel a)) = Exited status ->
  filter is_cleanup (trace (run_main w (Control.script fuel a))) = [Cleanup]
  /\ last_write (trace (run_main w (Control.script fuel a)))
     = Some (Control.RELAY_OFF (Control.active_high a))
  /\ exists t,
      trace (run_main w (Control.script fuel a))
      = t ++ [Output Control.relay_pin (Control.RELAY_OFF (Control.active_high a));
              Print MsgCleaningUp; Cleanup].
Proof.
  rewrite ControlFacts.control_script_process. unfold finish.
  pose proof (no_cleanup_filter (@ControlMore.loop_no_cleanup fuel a 0%Z w 0%nat)) as Hc.
  destruct (result (Control.while_loop fuel a 0 w 0)) as [u|[|]|];
    cbn [trace ending]; intros H; try discriminate H;
    (split; [rewrite !filter_app, Hc; reflexivity|]);
    (split; [|eexists; rewrite ?app_assoc; reflexivity]).
  - change (control_on_exit a)
      with ([Output Control.relay_pin (Control.RELAY_OFF (Control.active_high a))]
              ++ [Print MsgCleaningUp; Cleanup]).
    rewrite !app_assoc. rewrite last_write_quiet_tail by reflexivity.
    apply last_write_snoc.
  - change (control_on_exit a)
      with ([Output Control.relay_pin (Control.RELAY_OFF (Control.active_high a))]
              ++ [Print MsgCleaningUp; Cleanup]).
    rewrite !app_assoc. rewrite last_write_quiet_tail by reflexivity.
    apply last_write_snoc.
  - change (control_on_exit a)
      with ([Output Control.relay_pin (Control.RELAY_OFF (Control.active_high a))]
              ++ [Print MsgCleaningUp; Cleanup]).
    rewrite !app_assoc. rewrite last_write_quiet_tail by reflexivity.
    apply last_write_snoc.
Qed.

(** ** The parser *)

Module ArgparseFacts.
Import Argparse ArgparseView.

Section Parser.

Variable A : Type.
Variable p : ArgumentParser A.


(** Takes apart the cases of a [step] that went on. *)
Ltac break_step H :=
  repeat match type of H with
         | context [match ?x with _ => _ end] => destruct x eqn:?
         end;
  try discriminate H; inversion H; subst; clear H.

Lemma exit_not_accepted status : ~ accepted (@SystemExit A status).
Proof. intros [a H]. discriminate H. Qed.

Lemma consume_cons t rest (st : PState A) :
  accepted (consume p (t :: rest) st) ->
  exists st', step p t st = inl st' /\ accepted (consume p rest st').
Proof.
  cbn [consume]. destruct (step p t st) as [st'|status]; intros H.
  - exists st'. split; [reflexivity | exact H].
  - destruct (exit_not_accepted H).
Qed.

(** Once a word is left over, it stays so. *)
Lemma step_extras t (st st' : PState A) :
  step p t st = inl st' -> extras st = true -> extras st' = true.
Proof.
  unfold step. intros H E.
  break_step H; cbn [extras]; first [exact E | reflexivity].
Qed.

Lemma leftover_rejected toks : forall st : PState A,
  extras st = true -> ~ accepted (consume p toks st).
Proof.
  induction toks as [|t rest IH]; intros st E H.
  - destruct H as [a H]. cbn in H. unfold finalize in H. rewrite E in H.
    destruct (pending st), (pos st); discriminate H.
  - apply consume_cons in H. destruct H as (st' & Hs & H).
    exact (IH st' (step_extras _ _ Hs E) H).
Qed.

Lemma step_unknown s (st st' : PState A) :
  step p (TUnknown _ s) st = inl st' -> extras st' = true.
Proof.
  unfold step. intros H. break_step H; reflexivity.
Qed.

(** A flag of nobody is never accepted. *)
Lemma unknown_rejected toks : forall st : PState A,
  existsb (@is_unknown A) toks = true -> ~ accepted (consume p toks st).
Proof.
  induction toks as [|t rest IH]; intros st E H; [discriminate E|].
  apply consume_cons in H. destruct H as (st' & Hs & H).
  cbn [existsb] in E. apply orb_true_iff in E. destruct E as [E|E].
  - destruct t; try discriminate E.
    exact (leftover_rejected _ _ (step_unknown _ _ Hs) H).
  - exact (IH st' E H).
Qed.

(** The first pass keeps the flags of nobody. *)
Lemma tokenize_unknown argv : forall toks,
  tokenize p argv = Some toks ->
  has_unknown_flag p argv = true ->
  existsb (@is_unknown A) toks = true.
Proof.
  unfold has_unknown_flag.
  induction argv as [|s rest IH]; intros toks Ht Hu; [discriminate Hu|].
  cbn [tokenize before_separator] in *.
  destruct (String.eqb s "--"); [discriminate Hu|].
  cbn [existsb] in Hu. unfold is_unknown_flag in Hu.
  destruct (classify p s) as [t|]; [|discriminate Ht].
  destruct (tokenize p rest) as [ts|]; [|discriminate Ht].
  injection Ht as <-. cbn [existsb].
  apply orb_true_iff in Hu. apply orb_true_iff. destruct Hu as [Hu|Hu].
  - left. destruct t; try discriminate Hu. reflexivity.
  - right. apply IH; [reflexivity | exact Hu].
Qed.

Theorem unknown_flag_rejected argv :
  has_unknown_flag p argv = true -> ~ accepted (parse_args p argv).
Proof.
  intros Hu. unfold parse_args.
  destruct (tokenize p argv) as [toks|] eqn:Ht; [|apply exit_not_accepted].
  apply unknown_rejected. exact (tokenize_unknown _ Ht Hu).
Qed.

(** *** The value of a positional *)

Lemma step_first_positional t rest (st st' : PState A) v convert pos' :
  step p t st = inl st' ->
  pos st = convert :: pos' -> convert v = None ->
  hd_error (free_args p (waiting st) (t :: rest)) = Some v ->
  hd_error (free_args p (waiting st') rest) = Some v /\ pos st' = convert :: pos'.
Proof.
  unfold step, waiting. intros Hs Hpos Hbad Hv.
  break_step Hs; cbn [pending pos] in *;
    cbn [free_args awaits_value hd_error] in Hv;
    repeat match goal with
           | H : resolve_flag _ _ _ _ = _ |- _ => rewrite H in Hv
           | H : pending ?s = _ |- context [pending ?s] => rewrite H
           end;
    try (split; [exact Hv | first [assumption | congruence]]);
    try congruence.
Qed.

Lemma first_positional_rejected toks : forall (st : PState A) v convert pos',
  pos st = convert :: pos' -> convert v = None ->
  hd_error (free_args p (waiting st) toks) = Some v ->
  ~ accepted (consume p toks st).
Proof.
  induction toks as [|t rest IH]; intros st v convert pos' Hpos Hbad Hv H.
  - destruct H as [a H]. cbn in H. unfold finalize in H. rewrite Hpos in H.
    destruct (pending st); discriminate H.
  - apply consume_cons in H. destruct H as (st' & Hs & H).
    destruct (step_first_positional _ _ _ Hs Hpos Hbad Hv) as (Hv' & Hpos').
    exact (IH st' v convert pos' Hpos' Hbad Hv' H).
Qed.

Theorem bad_positional_rejected argv v convert pos' :
  positionals p = convert :: pos' -> convert v = None ->
  first_positional p argv = Some v ->
  ~ accepted (parse_args p argv).
Proof.
  unfold first_positional, parse_args. intros Hpos Hbad Hv.
  destruct (tokenize p argv) as [toks|]; [|apply exit_not_accepted].
  eapply first_positional_rejected; eauto.
Qed.

(** *** The values of a flag *)

Lemma uncluster_store o convert glued :
  uncluster p o (Store convert) glued = Some ([], Store convert, Some glued).
Proof. destruct glued; reflexivity. Qed.

Lemma step_flag_value name convert t rest (st st' : PState A) v awaited :
  step p t st = inl st' ->
  names name convert t ->
  (awaited = true -> waits_for convert st) ->
  convert v = None ->
  In v (values_of name awaited (t :: rest)) ->
  exists awaited',
    In v (values_of name awaited' rest)
    /\ (awaited' = true -> waits_for convert st').
Proof.
  intros Hs Hn Hw Hbad Hv.
  destruct t as [x|o act explicit|x|]; cbn [values_of] in Hv.
  - (* an argument *)
    exists false. split; [|discriminate].
    destruct awaited; [|exact Hv].
    destruct Hv as [->|Hv]; [|exact Hv]. exfalso.
    destruct (Hw eq_refl) as (acts & Hp).
    unfold step in Hs. rewrite Hp in Hs.
    destruct (take_actions acts (ns st)); [|discriminate Hs].
    rewrite Hbad in Hs. discriminate Hs.
  - (* a flag *)
    unfold step in Hs.
    destruct (pending st) as [[acts0 c0]|] eqn:Hp; [discriminate Hs|].
    destruct (String.eqb o name) eqn:Ho.
    + apply String.eqb_eq in Ho. cbn [names] in Hn. rewrite (Hn Ho) in *.
      destruct explicit as [x|]; cbn [resolve_flag] in Hs.
      * exists false. split; [|discriminate].
        destruct Hv as [->|Hv]; [|exact Hv]. exfalso.
        rewrite uncluster_store in Hs.
        cbn [take_actions] in Hs. rewrite Hbad in Hs. discriminate Hs.
      * exists true. split; [exact Hv|]. intros _.
        inversion Hs; subst. exists []. reflexivity.
    + exists false. split; [exact Hv | discriminate].
  - exists false. split; [exact Hv | discriminate].
  - exists false. split; [exact Hv | discriminate].
Qed.

Lemma flag_value_rejected name convert toks :
  forall (st : PState A) v awaited,
    Forall (names name convert) toks ->
    (awaited = true -> waits_for convert st) ->
    convert v = None ->
    In v (values_of name awaited toks) ->
    ~ accepted (consume p toks st).
Proof.
  induction toks as [|t rest IH]; intros st v awaited Hn Hw Hbad Hv H.
  - destruct Hv.
  - apply consume_cons in H. destruct H as (st' & Hs & H).
    inversion Hn as [|? ? Ht Hrest]; subst.
    destruct (@step_flag_value name convert t rest st st' v awaited Hs Ht Hw Hbad Hv)
      as (awaited' & Hv' & Hw').
    exact (IH st' v awaited' Hrest Hw' Hbad Hv' H).
Qed.

Lemma lookup_option_registered s act :
  lookup_option p s = Some act -> In (s, act) (option_string_actions p).
Proof.
  unfold lookup_option.
  destruct (find _ _) as [[o a0]|] eqn:E; [|discriminate].
  cbn. intros H. injection H as <-.
  apply find_some in E. destruct E as [Hin Heq]. cbn in Heq.
  apply String.eqb_eq in Heq. subst. exact Hin.
Qed.

Lemma option_tuples_registered s : Forall (registered p) (option_tuples p s).
Proof.
  unfold option_tuples.
  destruct (second_is_dash s).
  - destruct (match split_at "="%char s with Some (l, r) => (l, Some r) | None => (s, None) end)
      as [pre explicit].
    apply Forall_forall. intros t Ht. apply in_flat_map in Ht.
    destruct Ht as ([o act] & Hin & Ht). cbn [fst snd] in Ht.
    destruct (String.prefix pre o); [|destruct Ht].
    destruct Ht as [<-|[]]. exact Hin.
  - apply Forall_forall. intros t Ht. apply in_flat_map in Ht.
    destruct Ht as ([o act] & Hin & Ht). cbn [fst snd] in Ht.
    destruct (String.eqb o _).
    + destruct Ht as [<-|[]]. exact Hin.
    + destruct (String.prefix s o); [|destruct Ht].
      destruct Ht as [<-|[]]. exact Hin.
Qed.

Lemma classify_registered s t : classify p s = COne t -> registered p t.
Proof.
  unfold classify. intros H.
  destruct s as [|c s']; [inversion H; exact I|].
  destruct (negb _); [inversion H; exact I|].
  destruct (lookup_option p (String c s')) as [act|] eqn:E.
  { inversion H; subst. apply lookup_option_registered. exact E. }
  destruct (_ =? 1)%nat; [inversion H; exact I|].
  destruct (split_at "="%char (String c s')) as [[l r]|].
  - destruct (lookup_option p l) as [act|] eqn:El.
    { inversion H; subst. apply lookup_option_registered. exact El. }
    pose proof (option_tuples_registered (String c s')) as Hot.
    destruct (option_tuples p (String c s')) as [|t1 [|t2 ts]].
    + destruct (negative_number _); [inversion H; exact I|].
      destruct (contains _ _); inversion H; exact I.
    + inversion H; subst. inversion Hot; assumption.
    + discriminate H.
  - pose proof (option_tuples_registered (String c s')) as Hot.
    destruct (option_tuples p (String c s')) as [|t1 [|t2 ts]].
    + destruct (negative_number _); [inversion H; exact I|].
      destruct (contains _ _); inversion H; exact I.
    + inversion H; subst. inversion Hot; assumption.
    + discriminate H.
Qed.

Lemma tokenize_registered argv : forall toks,
  tokenize p argv = Some toks -> Forall (registered p) toks.
Proof.
  induction argv as [|s rest IH]; intros toks H; cbn [tokenize] in H.
  - injection H as <-. constructor.
  - destruct (String.eqb s "--").
    + injection H as <-. constructor; [exact I|].
      apply Forall_forall. intros t Ht.
      apply in_map_iff in Ht. destruct Ht as (x & <- & _). exact I.
    + destruct (classify p s) as [t|] eqn:Ec; [|discriminate H].
      destruct (tokenize p rest) as [ts|]; [|discriminate H].
      injection H as <-. constructor; [|apply IH; reflexivity].
      exact (classify_registered _ Ec).
Qed.

Theorem bad_flag_value_rejected name convert argv v :
  (forall act, In (name, act) (option_string_actions p) -> act = Store convert) ->
  convert v = None ->
  In v (flag_values p name argv) ->
  ~ accepted (parse_args p argv).
Proof.
  unfold flag_values, parse_args. intros Hname Hbad Hv.
  destruct (tokenize p argv) as [toks|] eqn:Ht; [|apply exit_not_accepted].
  eapply flag_value_rejected with (awaited := false); eauto; [|discriminate].
  eapply Forall_impl; [|exact (tokenize_registered _ Ht)].
  intros [x|o act e|x|] Hreg; cbn [names registered] in *; auto.
  intros ->. apply Hname. exact Hreg.
Qed.

End Parser.
End ArgparseFacts.
(** ** The programs on their command lines *)

Lemma control_initial_state_flag b act :
  In ("--initial-state"%string, act)
     (Argparse.option_string_actions (Control.parser b)) ->
  act = Argparse.Store
          (fun s => if Control.in_choices s
                    then Some (Control.set_initial_state s) else None).
Proof.
  cbn. intros H.
  repeat (destruct H as [H|H];
          [try discriminate H; injection H as <-; reflexivity|]).
  destruct H.
Qed.

Lemma control_invalid_arguments_rejected b argv :
  unknown_flag b relay_control argv = true
  \/ invalid_state_value b relay_control argv = true ->
  ~ ArgparseView.accepted (Control.parse_args b argv).
Proof.
  intros [H|H].
  - apply ArgparseFacts.unknown_flag_rejected. exact H.
  - cbn [invalid_state_value] in H. apply existsb_exists in H.
    destruct H as (v & Hin & Hv). apply negb_true_iff in Hv.
    eapply ArgparseFacts.bad_flag_value_rejected;
      [apply control_initial_state_flag | | exact Hin].
    cbn beta. rewrite Hv. reflexivity.
Qed.

Lemma switch_invalid_arguments_rejected b argv :
  unknown_flag b relay_switch argv = true
  \/ invalid_state_value b relay_switch argv = true ->
  ~ ArgparseView.accepted (Switch.parse_args b argv).
Proof.
  intros [H|H].
  - apply ArgparseFacts.unknown_flag_rejected. exact H.
  - cbn [invalid_state_value] in H.
    destruct (Argparse.first_positional (Switch.parser b) argv) as [v|] eqn:Ev;
      [|discriminate H].
    apply negb_true_iff in H.
    eapply ArgparseFacts.bad_positional_rejected; [reflexivity| |exact Ev].
    cbn beta. rewrite H. reflexivity.
Qed.

(** The one-shot driver, however it comes to its end, calls
    [GPIO.cleanup()] once. *)
Lemma one_shot_cleans_up_once a w fuel status :
  ending (run_main w (Switch.script fuel a)) = Exited status ->
  filter is_cleanup (trace (run_main w (Switch.script fuel a))) = [Cleanup].
Proof.
  rewrite SwitchFacts.switch_script_process. unfold finish.
  pose proof (no_cleanup_filter (@switch_body_no_cleanup fuel a w 0%nat)) as Hc.
  destruct (result (switch_body fuel a w 0)) as [u|[|]|];
    cbn [trace ending]; intros H; try discriminate H;
    rewrite !filter_app, Hc; reflexivity.
Qed.

(** ** Exceptions of [time.sleep] *)

Lemma refusable_ret {A} (a : A) : refusable (ret a).
Proof. intros w k. reflexivity. Qed.

Lemma refusable_out_of_fuel {A} : refusable (@out_of_fuel A).
Proof. intros w k. reflexivity. Qed.

Lemma refusable_emit e : refused e = false -> refusable (emit e).
Proof. intros H w k. unfold error_ended. simpl. rewrite H. reflexivity. Qed.

Lemma refusable_sleep d : refusable (time_sleep d).
Proof.
  intros w k. unfold error_ended, time_sleep. cbn [log result].
  destruct (sleep_outcome w k d); reflexivity.
Qed.

Lemma refusable_bind {A B} (m : M A) (f : A -> M B) :
  refusable m -> (forall a, refusable (f a)) -> refusable (bind m f).
Proof.
  intros Hm Hf w k. specialize (Hm w k). unfold error_ended in Hm |- *.
  unfold bind. cbv zeta.
  destruct (result (m w k)) as [x|e|] eqn:E; cbn [log result]; try exact Hm.
  specialize (Hf x w (naps (m w k))). unfold error_ended in Hf.
  rewrite existsb_app, Hm, Hf. reflexivity.
Qed.

Lemma control_loop_refusable fuel a : forall c, refusable (Control.while_loop fuel a c).
Proof.
  induction fuel as [|fuel IH]; intros c; simpl;
    destruct (Control.loop_cond _ _); try apply refusable_ret.
  - apply refusable_out_of_fuel.
  - apply refusable_bind; [|exact IH].
    unfold Control.loop_body, GPIO_output, print.
    repeat (apply refusable_bind;
            [first [apply refusable_emit; reflexivity | apply refusable_sleep]
            |intros _]).
    destruct (0 <? _)%Z; [|apply refusable_ret].
    apply refusable_bind; [apply refusable_emit; reflexivity|].
    intros _. apply refusable_ret.
Qed.

Lemma switch_body_refusable fuel a : refusable (switch_body fuel a).
Proof.
  unfold switch_body. apply refusable_bind.
  - unfold Switch.set_state, GPIO_output, print.
    destruct (String.eqb _ _);
      (apply refusable_bind; [apply refusable_emit; reflexivity|]);
      intros _; apply refusable_emit; reflexivity.
  - intros _. unfold Switch.hold, print.
    destruct (py_gt0 _); [|destruct (py_eq0 _)].
    + apply refusable_bind; [apply refusable_emit; reflexivity|].
      intros _. apply refusable_sleep.
    + apply refusable_bind; [apply refusable_emit; reflexivity|].
      intros _. induction fuel as [|fuel IH]; simpl.
      * apply refusable_out_of_fuel.
      * apply refusable_bind; [apply refusable_sleep | intros _; exact IH].
    + apply refusable_ret.
Qed.

Lemma finish_status header lh lf (r : Run unit) status :
  error_ended r ->
  existsb refused header = false ->
  existsb refused lh = false ->
  existsb refused lf = false ->
  ending (finish header lh lf r) = Exited status ->
  status = if existsb refused (trace (finish header lh lf r)) then 1%Z else 0%Z.
Proof.
  unfold error_ended, finish. intros Hr Hh Hlh Hlf.
  destruct (result r) as [u|[|]|]; cbn [trace ending]; intros H;
    try discriminate H; injection H as <-;
    rewrite !existsb_app, Hh, Hr, ?Hlh, ?Hlf; reflexivity.
Qed.

Lemma finish_ends_with header lh lf (r : Run unit) status :
  ending (finish header lh lf r) = Exited status ->
  exists t, trace (finish header lh lf r) = (header ++ t) ++ lf
            /\ (t = log r \/ t = log r ++ lh).
Proof.
  unfold finish.
  destruct (result r) as [u|[|]|]; cbn [trace ending]; intros H;
    try discriminate H.
  - exists (log r). rewrite <- !app_assoc. auto.
  - exists (log r ++ lh). rewrite <- !app_assoc. auto.
  - exists (log r). rewrite <- !app_assoc. auto.
Qed.

(** ** The hold of the one-shot driver *)

Lemma py_eq0_gt0 d : py_eq0 d = true -> py_gt0 d = false.
Proof.
  destruct d as [z|f]; simpl.
  - intros H. apply Z.eqb_eq in H. subst. reflexivity.
  - unfold SFltb, SFeqb.
    destruct f as [s|s| |s m e]; simpl; try discriminate; try reflexivity;
      destruct s; simpl; congruence.
Qed.

Lemma sleep_forever_run w :
  sleep_accepts w (PyInt 1) = true ->
  forall fuel k,
    if existsb (interrupt_at w) (seq k fuel)
    then result (Switch.sleep_forever fuel w k) = Raise KeyboardInterrupt
    else result (Switch.sleep_forever fuel w k) = Unfinished
         /\ log (Switch.sleep_forever fuel w k)
            = repeat (Sleep (PyInt 1) Elapsed) fuel.
Proof.
  intros Hok. induction fuel as [|fuel IH]; intros k.
  - split; reflexivity.
  - cbn [seq existsb Switch.sleep_forever]. unfold bind, time_sleep. cbv zeta.
    cbn [log naps result].
    assert (Ho : sleep_outcome w k (PyInt 1)
                 = if interrupt_at w k then Interrupted else Elapsed)
      by (unfold sleep_outcome; rewrite Hok; reflexivity).
    rewrite !Ho.
    destruct (interrupt_at w k); cbn [orb result log naps]; [reflexivity|].
    specialize (IH (S k)).
    destruct (existsb (interrupt_at w) (seq (S k) fuel)).
    + exact IH.
    + destruct IH as (Hr & Hl). split; [exact Hr|].
      rewrite Hl. reflexivity.
Qed.

Lemma sleep_forever_first fuel w k :
  exists how rest,
    log (Switch.sleep_forever (S fuel) w k) = Sleep (PyInt 1) how :: rest.
Proof.
  cbn [Switch.sleep_forever]. unfold bind, time_sleep. cbv zeta.
  cbn [log naps result].
  destruct (sleep_outcome w k (PyInt 1)); cbn [log result app]; eauto.
Qed.

(** ** The counter and the writes of the cycle driver *)

Lemma completed_lines_app t1 t2 :
  completed_lines (t1 ++ t2) = completed_lines t1 ++ completed_lines t2.
Proof.
  induction t1 as [|e t1 IH]; [reflexivity|].
  destruct e as [| | | | |m]; cbn [app completed_lines]; try exact IH.
  destruct m; cbn [app]; rewrite ?IH; reflexivity.
Qed.

Module ControlCount.
Import Control.

Lemma loop_body_completed a c w k :
  match result (loop_body a c w k) with
  | Normal c' =>
      c' = (if (0 <? cycles a)%Z then (c + 1)%Z else c)
      /\ completed_lines (log (loop_body a c w k))
         = if (0 <? cycles a)%Z then [((c + 1)%Z, cycles a)] else []
  | _ => completed_lines (log (loop_body a c w k)) = []
  end.
Proof.
  unfold loop_body, bind, time_sleep, GPIO_output, print, emit, ret. cbn.
  destruct (sleep_outcome w k (on_time a)); cbn; try reflexivity.
  destruct (sleep_outcome w (S k) (off_time a)); cbn; try reflexivity.
  destruct (0 <? cycles a)%Z; cbn; split; reflexivity.
Qed.

Lemma loop_body_writes a c w k :
  (writes (log (loop_body a c w k)) = [RELAY_ON (active_high a)]
   /\ exists e, result (loop_body a c w k) = Raise e)
  \/ writes (log (loop_body a c w k))
     = [RELAY_ON (active_high a); RELAY_OFF (active_high a)].
Proof.
  unfold loop_body, bind, time_sleep, GPIO_output, print, emit, ret. cbn.
  destruct (sleep_outcome w k (on_time a)); cbn; eauto.
  destruct (sleep_outcome w (S k) (off_time a)); cbn; eauto.
  destruct (0 <? cycles a)%Z; cbn; eauto.
Qed.

Lemma loop_writes a w : forall fuel c k0,
  exists n (partial : bool),
    writes (log (while_loop fuel a c w k0))
    = on_off n (RELAY_ON (active_high a)) (RELAY_OFF (active_high a))
      ++ (if partial then [RELAY_ON (active_high a)] else [])
    /\ (partial = true -> exists e, result (while_loop fuel a c w k0) = Raise e)
    /\ ((0 < cycles a)%Z -> (c <= cycles a)%Z ->
        (c + Z.of_nat n + (if partial then 1 else 0) <= cycles a)%Z).
Proof.
  induction fuel as [|fuel IH]; intros c k0.
  - exists 0%nat, false. cbn [while_loop].
    destruct (loop_cond _ _); repeat split; intros; try discriminate;
      try reflexivity; lia.
  - destruct (loop_cond (cycles a) c) eqn:Hc.
    2:{ exists 0%nat, false. rewrite ControlFacts.while_loop_done by exact Hc.
        repeat split; intros; try discriminate; try reflexivity; lia. }
    rewrite ControlFacts.while_loop_step by exact Hc.
    assert (Hlt : (0 < cycles a)%Z -> (c < cycles a)%Z).
    { unfold loop_cond in Hc. apply orb_true_iff in Hc. intros Hpos.
      destruct Hc as [Hc|Hc];
        [apply Z.eqb_eq in Hc; lia | apply Z.ltb_lt in Hc; lia]. }
    unfold bind. cbv zeta.
    pose proof (loop_body_writes a c w k0) as Hw.
    pose proof (loop_body_completed a c w k0) as Hb.
    destruct (result (loop_body a c w k0)) as [c'|e|] eqn:Hr; cbn [log result].
    + destruct Hw as [(_ & e & He)|Hw]; [discriminate He|].
      destruct Hb as (-> & _).
      destruct (IH (if (0 <? cycles a)%Z then (c + 1)%Z else c)
                   (naps (loop_body a c w k0))) as (n & partial & Hn & Hp & Hle).
      exists (S n), partial. rewrite writes_app, Hw, Hn.
      split; [reflexivity|]. split; [exact Hp|].
      intros Hpos Hcle. specialize (Hlt Hpos).
      assert (Hpos' : (0 <? cycles a)%Z = true) by (apply Z.ltb_lt; lia).
      rewrite Hpos' in Hle. specialize (Hle Hpos). lia.
    + destruct Hw as [(Hw & _)|Hw]; rewrite Hw.
      * exists 0%nat, true. split; [reflexivity|]. split; [eauto|].
        intros Hpos _. specialize (Hlt Hpos). lia.
      * exists 1%nat, false. split; [reflexivity|]. split; [discriminate|].
        intros Hpos _. specialize (Hlt Hpos). lia.
    + destruct Hw as [(_ & e & He)|Hw]; [discriminate He|]. rewrite Hw.
      exists 1%nat, false. split; [reflexivity|]. split; [discriminate|].
      intros Hpos _. specialize (Hlt Hpos). lia.
Qed.

End ControlCount.

(** ** What every accepted command line has *)

Module ArgparseSound.
Import Argparse ArgparseView ArgparseKeeps.

Section Parser.

Variable A : Type.
Variable p : ArgumentParser A.
Variable P : A -> Prop.

Hypothesis flags_keep :
  forall o act, In (o, act) (option_string_actions p) -> keeps P act.
Hypothesis positionals_settle : Forall (settles P) (positionals p).
Hypothesis defaults_hold : positionals p = [] -> P (defaults p).

Lemma lookup_option_keeps s act : lookup_option p s = Some act -> keeps P act.
Proof.
  intros H. apply (flags_keep s).
  apply ArgparseFacts.lookup_option_registered. exact H.
Qed.

Lemma uncluster_keeps glued : forall o act acts final v,
  keeps P act ->
  uncluster p o act glued = Some (acts, final, v) ->
  Forall (keeps P) acts /\ keeps P final.
Proof.
  induction glued as [|c glued IH]; intros o act acts final v Hk H.
  - destruct act; cbn in H; try discriminate H.
    + injection H as <- <- <-. split; [constructor | exact Hk].
    + destruct (second_is_dash o); discriminate H.
    + destruct (second_is_dash o); discriminate H.
  - destruct act as [convert|set|].
    + cbn in H. injection H as <- <- <-. split; [constructor | exact Hk].
    + cbn [uncluster] in H. destruct (second_is_dash o); [discriminate H|].
      destruct (lookup_option p _) as [act'|] eqn:El; [|discriminate H].
      pose proof (lookup_option_keeps _ El) as Hk'.
      destruct glued as [|c' glued'].
      * injection H as <- <- <-. split; [repeat constructor; exact Hk | exact Hk'].
      * destruct (uncluster p _ act' (String c' glued')) as [[[acts' final'] v']|] eqn:Eu;
          [|discriminate H].
        injection H as <- <- <-.
        destruct (IH _ _ _ _ _ Hk' Eu) as (Ha & Hf).
        split; [constructor; assumption | exact Hf].
    + cbn [uncluster] in H. destruct (second_is_dash o); [discriminate H|].
      destruct (lookup_option p _) as [act'|] eqn:El; [|discriminate H].
      pose proof (lookup_option_keeps _ El) as Hk'.
      destruct glued as [|c' glued'].
      * injection H as <- <- <-. split; [repeat constructor | exact Hk'].
      * destruct (uncluster p _ act' (String c' glued')) as [[[acts' final'] v']|] eqn:Eu;
          [|discriminate H].
        injection H as <- <- <-.
        destruct (IH _ _ _ _ _ Hk' Eu) as (Ha & Hf).
        split; [constructor; [exact I | assumption] | exact Hf].
Qed.

Lemma resolve_flag_keeps o act explicit acts final v :
  keeps P act ->
  resolve_flag p o act explicit = Some (acts, final, v) ->
  Forall (keeps P) acts /\ keeps P final.
Proof.
  intros Hk H. destruct explicit as [glued|]; cbn in H.
  - eapply uncluster_keeps; [exact Hk | exact H].
  - injection H as <- <- <-. split; [constructor | exact Hk].
Qed.

Lemma take_actions_keeps acts : forall ns ns',
  Forall (keeps P) acts -> take_actions acts ns = Some ns' -> P ns -> P ns'.
Proof.
  induction acts as [|act acts IH]; intros ns ns' Hk H Hp; cbn in H.
  - injection H as <-. exact Hp.
  - inversion Hk as [|? ? Hact Hacts]; subst.
    destruct act as [convert|set|]; try discriminate H.
    + exact (IH _ _ Hacts H Hp).
    + exact (IH _ _ Hacts H (Hact _ Hp)).
Qed.

Lemma step_sound t (st st' : PState A) :
  sound_token P t -> sound_state p P st -> step p t st = inl st' ->
  sound_state p P st'.
Proof.
  intros Ht (Hsuffix & Hp & Hpend) Hs. unfold step in Hs.
  destruct (pending st) as [[acts convert]|] eqn:Epend.
  - destruct (Hpend _ _ eq_refl) as (Hacts & Hconv).
    destruct t as [v| | |]; try discriminate Hs.
    destruct (take_actions acts (ns st)) as [ns'|] eqn:Eacts; [|discriminate Hs].
    destruct (convert v) as [set|] eqn:Ec; [|discriminate Hs].
    injection Hs as <-. split; [exact Hsuffix|]. split; [|discriminate].
    cbn. intros Hnil. apply (Hconv _ _ _ Ec).
    eapply take_actions_keeps; [exact Hacts | exact Eacts | exact (Hp Hnil)].
  - destruct t as [v|o act explicit|s|].
    + destruct (pos st) as [|convert pos'] eqn:Epos.
      * injection Hs as <-. split; [exists (positionals p); rewrite app_nil_r; reflexivity|].
        split; [intros _; apply Hp; reflexivity | discriminate].
      * destruct (convert v) as [set|] eqn:Ec; [|discriminate Hs].
        injection Hs as <-. destruct Hsuffix as (filled & Hfilled).
        split; [exists (filled ++ [convert]); rewrite <- app_assoc; exact Hfilled|].
        split; [|discriminate].
        intros _. cbn.
        assert (Hin : In convert (positionals p))
          by (rewrite Hfilled; apply in_or_app; right; left; reflexivity).
        rewrite Forall_forall in positionals_settle.
        exact (positionals_settle _ Hin _ _ _ Ec).
    + cbn in Ht.
      destruct (resolve_flag p o act explicit) as [[[acts final] glued]|] eqn:Er;
        [|discriminate Hs].
      destruct (@resolve_flag_keeps o act explicit acts final glued Ht Er) as (Hacts & Hfinal).
      destruct final as [convert|set|]; destruct glued as [v|].
      * destruct (take_actions acts (ns st)) as [ns'|] eqn:Eacts; [|discriminate Hs].
        destruct (convert v) as [set|] eqn:Ec; [|discriminate Hs].
        injection Hs as <-. split; [exact Hsuffix|]. split; [|discriminate].
        cbn. intros Hnil. apply (Hfinal _ _ _ Ec).
        eapply take_actions_keeps; [exact Hacts | exact Eacts | exact (Hp Hnil)].
      * injection Hs as <-. split; [exact Hsuffix|]. split; [exact Hp|].
        cbn. intros acts0 c0 H0. injection H0 as <- <-. split; assumption.
      * destruct (take_actions acts (ns st)) as [ns'|] eqn:Eacts; [|discriminate Hs].
        injection Hs as <-. split; [exact Hsuffix|]. split; [|discriminate].
        cbn. intros Hnil. apply Hfinal.
        eapply take_actions_keeps; [exact Hacts | exact Eacts | exact (Hp Hnil)].
      * destruct (take_actions acts (ns st)) as [ns'|] eqn:Eacts; [|discriminate Hs].
        injection Hs as <-. split; [exact Hsuffix|]. split; [|discriminate].
        cbn. intros Hnil. apply Hfinal.
        eapply take_actions_keeps; [exact Hacts | exact Eacts | exact (Hp Hnil)].
      * destruct (take_actions acts (ns st)); discriminate Hs.
      * destruct (take_actions acts (ns st)); discriminate Hs.
    + injection Hs as <-. split; [exact Hsuffix|]. split; [exact Hp | discriminate].
    + assert (Hst : sound_state p P st).
      { split; [exact Hsuffix|]. split; [exact Hp|].
        intros acts c Hc. rewrite Epend in Hc. discriminate Hc. }
      destruct (pos st) as [|convert pos'] eqn:Epos.
      * destruct (slack st); injection Hs as <-; [exact Hst|].
        split; [exists (positionals p); rewrite app_nil_r; reflexivity|].
        split; [intros _; apply Hp; reflexivity | discriminate].
      * injection Hs as <-. exact Hst.
Qed.

Lemma consume_sound toks : forall (st : PState A) a,
  Forall (sound_token P) toks -> sound_state p P st ->
  consume p toks st = Namespace a -> P a.
Proof.
  induction toks as [|t rest IH]; intros st a Ht Hst H.
  - cbn in H. unfold finalize in H. destruct Hst as (_ & Hp & _).
    destruct (pending st); [discriminate H|].
    destruct (pos st); [|discriminate H].
    destruct (extras st); [discriminate H|].
    injection H as <-. apply Hp. reflexivity.
  - inversion Ht as [|? ? Htok Hrest]; subst.
    cbn [consume] in H.
    destruct (step p t st) as [st'|status] eqn:Es; [|discriminate H].
    exact (IH st' a Hrest (@step_sound t st st' Htok Hst Es) H).
Qed.

Theorem parse_args_sound argv a :
  parse_args p argv = Namespace a -> P a.
Proof.
  unfold parse_args. intros H.
  destruct (tokenize p argv) as [toks|] eqn:Et; [|discriminate H].
  eapply consume_sound; [| |exact H].
  - eapply Forall_impl; [|exact (@ArgparseFacts.tokenize_registered A p argv toks Et)].
    intros [v|o act e|s|] Hreg; cbn in *; auto. exact (flags_keep _ _ Hreg).
  - split; [exists []; reflexivity|]. split; [exact defaults_hold | discriminate].
Qed.

End Parser.
End ArgparseSound.

(** One flag of a parser: its setter leaves the field alone, or stores a
    value that was checked. *)
Ltac keeps_case :=
  cbn; try exact I; intros;
  repeat match goal with
         | H : option_map _ ?x = Some _ |- _ =>
             destruct x; [injection H as <-|discriminate H]
         | H : (if ?c then _ else _) = Some _ |- _ =>
             destruct c eqn:?; [injection H as <-|discriminate H]
         end;
  cbn; assumption.

Lemma switch_state_checked b argv a :
  Switch.parse_args b argv = Argparse.Namespace a ->
  Switch.in_choices (Switch.state a) = true.
Proof.
  apply (@ArgparseSound.parse_args_sound _ (Switch.parser b)
           (fun a => Switch.in_choices (Switch.state a) = true)).
  - cbn. intros o act H.
    repeat (destruct H as [H|H];
            [injection H as <- <-; keeps_case|]).
    destruct H.
  - repeat constructor. intros v set ns H.
    destruct (Switch.in_choices v) eqn:E; [|discriminate H].
    injection H as <-. exact E.
  - discriminate.
Qed.

Lemma control_initial_state_checked b argv a :
  Control.parse_args b argv = Argparse.Namespace a ->
  Control.in_choices (Control.initial_state a) = true.
Proof.
  apply (@ArgparseSound.parse_args_sound _ (Control.parser b)
           (fun a => Control.in_choices (Control.initial_state a) = true)).
  - cbn. intros o act H.
    repeat (destruct H as [H|H];
            [injection H as <- <-; keeps_case|]).
    destruct H.
  - constructor.
  - intros _. reflexivity.
Qed.

Lemma in_choices_word v :
  existsb (String.eqb v) ["on"; "off"]%string = true ->
  exists s : LogicalState, v = state_word s.
Proof.
  cbn. intros H. apply orb_true_iff in H. destruct H as [H|H].
  - apply String.eqb_eq in H. exists On. exact H.
  - apply orb_true_iff in H. destruct H as [H|H]; [|discriminate H].
    apply String.eqb_eq in H. exists Off. exact H.
Qed.

Lemma polarity_of_flag (f : bool) : exists p : Polarity, f = polarity_flag p.
Proof. destruct f; [exists ActiveHigh | exists ActiveLow]; reflexivity. Qed.

(** ** A positional left out, a flag added *)

Module ArgparseMore.
Import Argparse ArgparseView ArgparseKeeps.

(** Every way a [step] can go on. *)
Ltac split_step H :=
  repeat match type of H with
         | context [match ?x with _ => _ end] => destruct x eqn:?
         end;
  try discriminate H; inversion H; subst; clear H.

Section Parser.

Variable A : Type.
Variable p : ArgumentParser A.

Lemma step_no_positional t rest (st st' : PState A) :
  step p t st = inl st' ->
  pos st <> [] ->
  free_args p (waiting st) (t :: rest) = [] ->
  pos st' <> [] /\ free_args p (waiting st') rest = [].
Proof.
  unfold step, waiting. intros Hs Hpos Hv.
  split_step Hs; cbn [pending pos] in *;
    cbn [free_args awaits_value] in Hv;
    repeat match goal with
           | H : resolve_flag _ _ _ _ = _ |- _ => rewrite H in Hv
           | H : pending ?s = _ |- context [pending ?s] => rewrite H
           end;
    try (split; [first [assumption | congruence] | exact Hv]);
    try discriminate Hv; try congruence.
Qed.

Lemma no_positional_rejected toks : forall st : PState A,
  pos st <> [] ->
  free_args p (waiting st) toks = [] ->
  ~ accepted (consume p toks st).
Proof.
  induction toks as [|t rest IH]; intros st Hpos Hv H.
  - destruct H as [a H]. cbn in H. unfold finalize in H.
    destruct (pending st); [discriminate H|].
    destruct (pos st); [congruence | discriminate H].
  - apply ArgparseFacts.consume_cons in H. destruct H as (st' & Hs & H).
    destruct (@step_no_positional t rest st st' Hs Hpos Hv) as (Hpos' & Hv').
    exact (IH st' Hpos' Hv' H).
Qed.

Theorem missing_positional_rejected argv :
  positionals p <> [] ->
  first_positional p argv = None ->
  ~ accepted (parse_args p argv).
Proof.
  unfold first_positional, parse_args. intros Hpos Hv.
  destruct (tokenize p argv) as [toks|]; [|apply ArgparseFacts.exit_not_accepted].
  apply no_positional_rejected; [exact Hpos|].
  cbn. destruct (free_args p false toks); [reflexivity | discriminate Hv].
Qed.

(** The second pass is the words as far as they go, then the end. *)
Lemma consume_advance toks : forall st : PState A,
  consume p toks st
  = match advance p toks st with
    | inl st' => finalize st'
    | inr status => SystemExit status
    end.
Proof.
  induction toks as [|t rest IH]; intros st; cbn; [reflexivity|].
  destruct (step p t st); [apply IH | reflexivity].
Qed.

Lemma advance_app toks1 toks2 : forall st : PState A,
  advance p (toks1 ++ toks2) st
  = match advance p toks1 st with
    | inl st' => advance p toks2 st'
    | inr status => inr status
    end.
Proof.
  induction toks1 as [|t rest IH]; intros st; cbn; [reflexivity|].
  destruct (step p t st); [apply IH | reflexivity].
Qed.

Lemma finalize_accepted (st : PState A) a :
  finalize st = Namespace a ->
  st = mkPState a [] false None (slack st).
Proof.
  unfold finalize. destruct st as [n ps e pd sl]. cbn.
  destruct pd; [discriminate|]. destruct ps; [|discriminate].
  destruct e; [discriminate|]. intros H. injection H as <-. reflexivity.
Qed.

Lemma tokenize_snoc argv x t : forall toks,
  existsb (String.eqb "--") argv = false ->
  String.eqb x "--" = false ->
  classify p x = COne t ->
  tokenize p argv = Some toks ->
  tokenize p (argv ++ [x]) = Some (toks ++ [t]).
Proof.
  intros toks Hsep Hx Hc. revert toks.
  induction argv as [|s rest IH]; intros toks Ht; cbn [app tokenize] in *.
  - injection Ht as <-. rewrite Hx, Hc. reflexivity.
  - cbn [existsb] in Hsep. apply orb_false_iff in Hsep. destruct Hsep as [Hs Hsep].
    rewrite String.eqb_sym in Hs. rewrite Hs in *.
    destruct (classify p s) as [t0|]; [|discriminate Ht].
    destruct (tokenize p rest) as [ts|]; [|discriminate Ht].
    injection Ht as <-. rewrite (IH Hsep ts eq_refl). reflexivity.
Qed.

(** A flag that stores a constant, added at the end of a command line
    that was accepted: the same namespace, with the constant stored. *)
Theorem trailing_flag_stores argv x o set a :
  existsb (String.eqb "--") argv = false ->
  String.eqb x "--" = false ->
  classify p x = COne (TFlag o (StoreConst set) None) ->
  parse_args p argv = Namespace a ->
  parse_args p (argv ++ [x]) = Namespace (set a).
Proof.
  unfold parse_args. intros Hsep Hx Hc H.
  destruct (tokenize p argv) as [toks|] eqn:Et; [|discriminate H].
  rewrite (@tokenize_snoc argv x _ toks Hsep Hx Hc Et).
  rewrite consume_advance in H. rewrite consume_advance, advance_app.
  destruct (advance p toks _) as [st'|status]; [|discriminate H].
  apply finalize_accepted in H. rewrite H. reflexivity.
Qed.

End Parser.
End ArgparseMore.

(** ** The calls to the GPIO driver, in order *)

Lemma pin_7_only_hardware t :
  Forall writes_pin_7_only t -> filter hardware t = map (Output 7) (writes t).
Proof.
  induction 1 as [|e t He _ IH]; [reflexivity|].
  destruct He as [He|(v & ->)].
  - cbn [filter]. rewrite He. destruct e; try discriminate He; exact IH.
  - cbn. rewrite IH. reflexivity.
Qed.

Lemma control_loop_pin_7_only fuel a :
  forall c, produces writes_pin_7_only (Control.while_loop fuel a c).
Proof.
  assert (Hout : forall v, writes_pin_7_only (Output Control.relay_pin v))
    by (intros v; right; exists v; reflexivity).
  induction fuel as [|fuel IH]; intros c; simpl;
    destruct (Control.loop_cond _ _); try apply produces_ret.
  - apply produces_out_of_fuel.
  - apply produces_bind; [|exact IH].
    unfold Control.loop_body, GPIO_output, print.
    repeat (apply produces_bind;
            [first [apply produces_emit; first [apply Hout | left; reflexivity]
                   |apply produces_sleep; left; reflexivity]
            |intros _]).
    destruct (0 <? _)%Z; [|apply produces_ret].
    apply produces_bind; [apply produces_emit; left; reflexivity|].
    intros _. apply produces_ret.
Qed.

Lemma switch_body_pin_7_only fuel a : produces writes_pin_7_only (switch_body fuel a).
Proof.
  assert (Hout : forall v, writes_pin_7_only (Output Switch.relay_pin v))
    by (intros v; right; exists v; reflexivity).
  unfold switch_body. apply produces_bind.
  - unfold Switch.set_state, GPIO_output, print.
    destruct (String.eqb _ _);
      (apply produces_bind; [apply produces_emit; apply Hout|]);
      intros _; apply produces_emit; left; reflexivity.
  - intros _. unfold Switch.hold, print.
    destruct (py_gt0 _); [|destruct (py_eq0 _)].
    + apply produces_bind; [apply produces_emit; left; reflexivity|].
      intros _. apply produces_sleep. left; reflexivity.
    + apply produces_bind; [apply produces_emit; left; reflexivity|].
      intros _. induction fuel as [|fuel IH]; simpl.
      * apply produces_out_of_fuel.
      * apply produces_bind; [apply produces_sleep; left; reflexivity|].
        intros _. exact IH.
    + apply produces_ret.
Qed.

Module ControlPasses.
Import Control.

Lemma control_pass_completed a i :
  completed_lines (control_pass a i)
  = if (0 <? cycles a)%Z then [(i, cycles a)] else [].
Proof. unfold control_pass. destruct (0 <? cycles a)%Z; reflexivity. Qed.

Lemma loop_body_pass a c w k :
  match result (loop_body a c w k) with
  | Normal c' =>
      c' = (if (0 <? cycles a)%Z then (c + 1)%Z else c)
      /\ log (loop_body a c w k) = control_pass a (c + 1)
  | _ =>
      completed_lines (log (loop_body a c w k)) = []
      /\ (List.length (filter elapsed (log (loop_body a c w k))) <= 1)%nat
  end.
Proof.
  unfold loop_body, control_pass, bind, time_sleep, GPIO_output, print, emit, ret. cbn.
  destruct (sleep_outcome w k (on_time a)); cbn; try (split; [reflexivity|lia]).
  destruct (sleep_outcome w (S k) (off_time a)); cbn; try (split; [reflexivity|lia]).
  destruct (0 <? cycles a)%Z; cbn; split; reflexivity.
Qed.

Lemma passes_step a c full :
  flat_map (fun i => control_pass a (c + Z.of_nat i)) (seq 1 (S full))
  = control_pass a (c + 1)
    ++ flat_map (fun i => control_pass a
                   ((if (0 <? cycles a)%Z then (c + 1)%Z else c) + Z.of_nat i))
                (seq 1 full).
Proof.
  cbn [seq flat_map]. f_equal.
  rewrite <- seq_shift, flat_map_concat_map, map_map, <- flat_map_concat_map.
  apply flat_map_ext. intros i. unfold control_pass.
  destruct (0 <? cycles a)%Z; [|reflexivity].
  replace (c + 1 + Z.of_nat i)%Z with (c + Z.of_nat (S i))%Z by lia.
  reflexivity.
Qed.

(** The log of the loop: full passes, then what is left of a pass that a
    sleep ended. *)
Lemma loop_passes a w : forall fuel c k0,
  exists (full : nat) (rest : list Event),
    log (while_loop fuel a c w k0)
    = flat_map (fun i => control_pass a (c + Z.of_nat i)) (seq 1 full) ++ rest
    /\ completed_lines rest = []
    /\ (List.length (filter elapsed rest) <= 1)%nat
    /\ (rest <> [] -> exists e, result (while_loop fuel a c w k0) = Raise e)
    /\ ((0 < cycles a)%Z -> (c <= cycles a)%Z -> (c + Z.of_nat full <= cycles a)%Z).
Proof.
  induction fuel as [|fuel IH]; intros c k0.
  - exists 0%nat, []. cbn [while_loop].
    destruct (loop_cond _ _); cbn; repeat split; intros; try congruence; lia.
  - destruct (loop_cond (cycles a) c) eqn:Hc.
    2:{ exists 0%nat, []. rewrite ControlFacts.while_loop_done by exact Hc.
        cbn. repeat split; intros; try congruence; lia. }
    rewrite ControlFacts.while_loop_step by exact Hc.
    assert (Hlt : (0 < cycles a)%Z -> (c < cycles a)%Z).
    { unfold loop_cond in Hc. apply orb_true_iff in Hc. intros Hpos.
      destruct Hc as [Hc|Hc];
        [apply Z.eqb_eq in Hc; lia | apply Z.ltb_lt in Hc; lia]. }
    unfold bind. cbv zeta.
    pose proof (loop_body_pass a c w k0) as Hb.
    destruct (result (loop_body a c w k0)) as [c'|e|] eqn:Hr; cbn [log result].
    + destruct Hb as (-> & Hb).
      destruct (IH (if (0 <? cycles a)%Z then (c + 1)%Z else c)
                   (naps (loop_body a c w k0)))
        as (full & rest & Hl & Hnone & Hone & Hraise & Hle).
      exists (S full), rest. rewrite passes_step, Hb, Hl, app_assoc.
      split; [reflexivity|]. split; [exact Hnone|]. split; [exact Hone|].
      split; [exact Hraise|].
      intros Hpos Hcle. specialize (Hlt Hpos).
      assert (Hpos' : (0 <? cycles a)%Z = true) by (apply Z.ltb_lt; lia).
      rewrite Hpos' in Hle. specialize (Hle Hpos). lia.
    + destruct Hb as (Hnone & Hone).
      exists 0%nat, (log (loop_body a c w k0)). cbn [seq flat_map app].
      split; [reflexivity|]. split; [exact Hnone|]. split; [exact Hone|].
      split; [eauto|]. intros Hpos _. specialize (Hlt Hpos). lia.
    + destruct Hb as (Hnone & Hone).
      exfalso. revert Hr.
      unfold loop_body, bind, time_sleep, GPIO_output, print, emit, ret. cbn.
      destruct (sleep_outcome w k0 (on_time a)); cbn; try discriminate.
      destruct (sleep_outcome w (S k0) (off_time a)); cbn; try discriminate.
      destruct (0 <? cycles a)%Z; cbn; discriminate.
Qed.

End ControlPasses.

(** * The claims *)

(** C1.  The one-shot driver does not end on the Off-level.  Its [finally]
    block releases the pin and writes nothing (the cycle driver's writes
    the Off-level first, see [cycle_driver_ends_off]).  Run as
    [relay_switch.py on --hold-time 3], the script writes HIGH once,
    sleeps, calls [GPIO.cleanup()] and exits with status 0: the last
    level written before the release is HIGH, the On-level, while the
    Off-level is LOW.  With the state [on] the one write of the run is
    the complement of the Off-level, whatever the polarity, the hold
    time, the world and the fuel. *)
Theorem one_shot_cleanup_leaves_the_on_level :
  run_script calm 0 (OneShot on_for_three)
  = mkProcess
      [Setmode; Setup 7 None; Output 7 HIGH; Print (MsgRelayOn 7 HIGH);
       Print (MsgHolding three); Sleep three Elapsed; Cleanup; Print MsgCleanedUp]
      (Exited 0)
  /\ last_write (trace (run_script calm 0 (OneShot on_for_three))) = Some HIGH
  /\ off_level (OneShot on_for_three) = LOW
  /\ forall (p : Polarity) (d : pynum) (w : World) (fuel : nat),
       writes (trace (run_script w fuel
                        (OneShot {| Switch.state := "on";
                                    Switch.active_high := polarity_flag p;
                                    Switch.hold_time := d |})))
       = [complement (off_level (OneShot {| Switch.state := "on";
                                            Switch.active_high := polarity_flag p;
                                            Switch.hold_time := d |}))].
Proof.
  repeat split; try reflexivity.
  intros p d w fuel. cbn [run_script]. rewrite SwitchFacts.script_writes.
  destruct p; reflexivity.
Qed.

(** C2.  For each state and polarity the level is HIGH for (On,
    ActiveHigh), LOW for (On, ActiveLow), and the complement of the
    On-level for Off.  [resolve], the specification's resolver, is a total
    function; the level the cycle driver configures for the initial state,
    the level the one-shot driver writes for the requested state and the
    pair [(RELAY_ON, RELAY_OFF)] of both scripts are all equal to it. *)
Theorem resolve_is_what_both_scripts_compute :
  forall (s : LogicalState) (p : Polarity),
    resolve s p
    = match s, p with
      | On, ActiveHigh => HIGH
      | On, ActiveLow => LOW
      | Off, ActiveHigh => LOW
      | Off, ActiveLow => HIGH
      end
    /\ Control.initial_level (state_word s) (polarity_flag p) = resolve s p
    /\ Switch.requested_level (state_word s) (polarity_flag p) = resolve s p
    /\ Control.relay_levels (polarity_flag p) = (resolve On p, resolve Off p)
    /\ Switch.relay_levels (polarity_flag p) = (resolve On p, resolve Off p).
Proof. intros [] []; repeat split; reflexivity. Qed.







(** C5.  In every run of either script, what follows a sleep that CTRL+C
    cut short is the [except] handler and then the [finally] block, nothing
    of the loop or the hold; and the process exits with status 0. *)
Theorem interrupt_during_sleep_exits_cleanly :
  forall (w : World) (fuel : nat) (s : Script)
         (pre post : list Event) (d : pynum),
    trace (run_script w fuel s) = pre ++ Sleep d Interrupted :: post ->
    post = Print MsgStopped :: cleanup_events s
    /\ ending (run_script w fuel s) = Exited 0.
Proof.
  intros w fuel [a|a] pre post d H; cbn [run_script cleanup_events] in *.
  - rewrite ControlFacts.control_script_process in *.
    eapply finish_after_interrupt in H; try reflexivity; [exact H|].
    apply control_loop_interruptible.
  - rewrite SwitchFacts.switch_script_process in *.
    eapply finish_after_interrupt in H; try reflexivity; [exact H|].
    apply switch_body_interruptible.
Qed.

Lemma interrupt_during_sleep_exits_cleanly_witness :
  trace (run_script (ctrl_c_at 1) 3 (CycleDriver endless))
  = (control_header endless
       ++ [Output 7 HIGH; Print (MsgRelayOn 7 HIGH); Sleep (PyFloat float_two) Elapsed;
           Output 7 LOW; Print (MsgRelayOff 7 LOW)])
    ++ Sleep (PyFloat float_two) Interrupted
    :: [Print MsgStopped; Output 7 LOW; Print MsgCleaningUp; Cleanup]
  /\ ([Print MsgStopped; Output 7 LOW; Print MsgCleaningUp; Cleanup]
      = Print MsgStopped :: cleanup_events (CycleDriver endless)
      /\ ending (run_script (ctrl_c_at 1) 3 (CycleDriver endless)) = Exited 0).
Proof.
  split; [reflexivity|].
  apply (@interrupt_during_sleep_exits_cleanly (ctrl_c_at 1) 3 (CycleDriver endless)
           (control_header endless
              ++ [Output 7 HIGH; Print (MsgRelayOn 7 HIGH);
                  Sleep (PyFloat float_two) Elapsed;
                  Output 7 LOW; Print (MsgRelayOff 7 LOW)])
           _ (PyFloat float_two)).
  reflexivity.
Defined.

(** C6.  For every requested state, polarity and hold time, in every
    world and with any fuel, the one-shot driver's trace starts with
    [setmode], the pin's configuration, one write of the resolved level of
    the requested state and the line printed for it; nothing that follows
    (the hold, whether it elapses, is interrupted or goes on, and the
    cleanup) writes to the pin.  So exactly one write happens, and it
    comes before any sleep. *)
Theorem one_shot_writes_once :
  forall (s : LogicalState) (p : Polarity) (d : pynum) (w : World) (fuel : nat),
    let a := {| Switch.state := state_word s;
                Switch.active_high := polarity_flag p;
                Switch.hold_time := d |} in
    exists m rest,
      trace (run_main w (Switch.script fuel a))
      = [Setmode; Setup Switch.relay_pin None;
         Output Switch.relay_pin (resolve s p); Print m] ++ rest
      /\ writes rest = [].
Proof.
  intros s p d w fuel a.
  exists (switch_said a).
  rewrite SwitchFacts.switch_script_process, SwitchFacts.body_run.
  unfold finish. cbn [log result].
  change (Switch.requested_level (Switch.state a) (Switch.active_high a))
    with (Switch.requested_level (state_word s) (polarity_flag p)).
  rewrite requested_level_resolve.
  destruct (result (Switch.hold fuel a w 0)) as [u|[|]|]; cbn [trace];
    eexists; (split; [cbn [app]; reflexivity|]);
    rewrite ?writes_app, SwitchFacts.hold_writes; reflexivity.
Qed.

(** C7.  When the command line of either program has a flag its parser
    does not know, or gives a state that is neither [on] nor [off] (as
    value of [--initial-state] for the cycle driver, as the positional
    [state] for the one-shot driver), [parse_args] leaves by [SystemExit]:
    the process only prints the parser's message and exits, and no call
    to the GPIO driver (no [setmode], no [setup], no [output], no
    [cleanup]) is made. *)
Theorem invalid_arguments_touch_no_hardware :
  forall (b : Builtins) (w : World) (fuel : nat) (prog : Program)
         (argv : list string),
    unknown_flag b prog argv = true \/ invalid_state_value b prog argv = true ->
    filter hardware (trace (run_program b w fuel prog argv)) = []
    /\ exists status,
        run_program b w fuel prog argv
        = mkProcess [Print (if (status =? 0)%Z then MsgHelp else MsgUsage)]
                    (Exited status).
Proof.
  intros b w fuel [|] argv H; cbn [run_program].
  - apply control_invalid_arguments_rejected in H. unfold Control.main.
    destruct (Control.parse_args b argv) as [a|status].
    + destruct H. exists a. reflexivity.
    + split; [destruct (status =? 0)%Z; reflexivity|].
      exists status. reflexivity.
  - apply switch_invalid_arguments_rejected in H. unfold Switch.main.
    destruct (Switch.parse_args b argv) as [a|status].
    + destruct H. exists a. reflexivity.
    + split; [destruct (status =? 0)%Z; reflexivity|].
      exists status. reflexivity.
Qed.

Lemma invalid_arguments_touch_no_hardware_witness :
  (unknown_flag sample_builtins relay_control ["--cycles"; "2"; "--bogus"]%string = true
   \/ invalid_state_value sample_builtins relay_control
        ["--cycles"; "2"; "--bogus"]%string = true)
  /\ filter hardware
       (trace (run_program sample_builtins calm 5 relay_control
                 ["--cycles"; "2"; "--bogus"]%string)) = []
  /\ exists status,
      run_program sample_builtins calm 5 relay_control ["--cycles"; "2"; "--bogus"]%string
      = mkProcess [Print (if (status =? 0)%Z then MsgHelp else MsgUsage)]
                  (Exited status).
Proof.
  assert (H : unknown_flag sample_builtins relay_control
                ["--cycles"; "2"; "--bogus"]%string = true
              \/ invalid_state_value sample_builtins relay_control
                   ["--cycles"; "2"; "--bogus"]%string = true)
    by (left; reflexivity).
  split; [exact H|].
  exact (@invalid_arguments_touch_no_hardware sample_builtins calm 5%nat relay_control
           ["--cycles"; "2"; "--bogus"]%string H).
Defined.

Example switch_rejects_bad_state :
  invalid_state_value sample_builtins relay_switch ["--hold-time"; "3"; "maybe"]%string = true
  /\ Switch.main sample_builtins calm 5 ["--hold-time"; "3"; "maybe"]%string
     = mkProcess [Print MsgUsage] (Exited 2).
Proof. split; reflexivity. Qed.

Example control_rejects_bad_initial_state :
  invalid_state_value sample_builtins relay_control ["--initial-state=maybe"]%string = true
  /\ Control.main sample_builtins calm 5 ["--initial-state=maybe"]%string
     = mkProcess [Print MsgUsage] (Exited 2).
Proof. split; reflexivity. Qed.

Example switch_accepts_good_line :
  unknown_flag sample_builtins relay_switch ["on"; "--hold-time"; "3"]%string = false
  /\ invalid_state_value sample_builtins relay_switch ["on"; "--hold-time"; "3"]%string = false
  /\ Switch.parse_args sample_builtins ["on"; "--hold-time"; "3"]%string
     = Argparse.Namespace on_for_three.
Proof. repeat split; reflexivity. Qed.

(** C8.  The initial state reaches the run of the cycle driver through one
    place only, the level [GPIO.setup] is given, which is the resolved
    level of that state: two runs that differ in the initial state alone
    have the same events after [setup] and the same ending.  The first
    write after [setup] is the On-level whenever the loop is entered (it
    is the cleanup's Off-level when [--cycles] is negative and the loop
    is skipped). *)
Theorem initial_state_only_sets_up_the_pin :
  forall (on off : pynum) (n : Z) (p : Polarity) (s : LogicalState)
         (w : World) (fuel : nat),
    let a := {| Control.on_time := on; Control.off_time := off; Control.cycles := n;
                Control.initial_state := state_word s;
                Control.active_high := polarity_flag p |} in
    exists rest,
      trace (run_main w (Control.script (S fuel) a))
      = Setmode :: Setup Control.relay_pin (Some (resolve s p)) :: rest
      /\ (forall s' : LogicalState,
             trace (run_main w (Control.script (S fuel)
                                  (Control.set_initial_state (state_word s') a)))
             = Setmode :: Setup Control.relay_pin (Some (resolve s' p)) :: rest
             /\ ending (run_main w (Control.script (S fuel)
                                      (Control.set_initial_state (state_word s') a)))
                = ending (run_main w (Control.script (S fuel) a)))
      /\ hd_error (writes rest)
         = Some (if Control.loop_cond n 0 then resolve On p else resolve Off p).
Proof.
  intros on off n p s w fuel a.
  exists (tl (tl (trace (run_main w (Control.script (S fuel) a))))).
  assert (Hlvl : forall s0 p0, Control.initial_level (state_word s0) (polarity_flag p0)
                               = resolve s0 p0) by (intros [] []; reflexivity).
  split; [|split].
  - rewrite ControlFacts.control_script_process. unfold finish.
    destruct (result _) as [u|[|]|]; cbn [trace control_header app tl];
      cbn [Control.initial_state Control.active_high a]; rewrite Hlvl; reflexivity.
  - intros s'. rewrite !ControlFacts.control_script_process.
    rewrite ControlMore.while_loop_ignores_initial_state.
    unfold finish.
    destruct (result _) as [u|[|]|]; cbn [trace ending control_header app tl];
      cbn [Control.initial_state Control.active_high Control.set_initial_state a];
      rewrite Hlvl; split; reflexivity.
  - rewrite ControlFacts.control_script_process.
    destruct (Control.loop_cond n 0) eqn:Hc.
    + destruct (@ControlMore.loop_first_write fuel a 0%Z w 0%nat Hc) as (l & Hl).
      unfold finish. rewrite Hl.
      destruct (result _) as [u|[|]|]; cbn [trace control_header app tl writes hd_error];
        destruct p; reflexivity.
    + rewrite ControlFacts.while_loop_done by exact Hc.
      destruct p; reflexivity.
Qed.

(** C9.  For every polarity the Off-level is the complement of the
    On-level: for the specification's [resolve], and for the [RELAY_OFF]
    and [RELAY_ON] of both scripts. *)
Theorem off_level_is_complement_of_on_level :
  forall p : Polarity,
    resolve Off p = complement (resolve On p)
    /\ Control.RELAY_OFF (polarity_flag p) = complement (Control.RELAY_ON (polarity_flag p))
    /\ Switch.RELAY_OFF (polarity_flag p) = complement (Switch.RELAY_ON (polarity_flag p)).
Proof. intros []; repeat split; reflexivity. Qed.

(** C10.  With a hold time below zero the one-shot driver takes neither
    branch of lines 64-70: the run is [setmode], [setup], the one write,
    its printed line, then the [finally] block, and the process exits with
    status 0; [time.sleep] is never called, in any world and with any
    fuel. *)
Theorem negative_hold_time_never_sleeps :
  forall (a : Switch.Args) (w : World) (fuel : nat),
    py_lt0 (Switch.hold_time a) = true ->
    exists m,
      run_main w (Switch.script fuel a)
      = mkProcess
          [Setmode; Setup Switch.relay_pin None;
           Output Switch.relay_pin
                  (Switch.requested_level (Switch.state a) (Switch.active_high a));
           Print m; Cleanup; Print MsgCleanedUp]
          (Exited 0)
      /\ filter is_sleep (trace (run_main w (Switch.script fuel a))) = [].
Proof.
  intros a w fuel H.
  exists (switch_said a).
  rewrite SwitchFacts.switch_script_process, SwitchFacts.body_run.
  unfold Switch.hold. rewrite (py_lt0_gt0 _ H), (py_lt0_eq0 _ H).
  split; reflexivity.
Qed.

Lemma negative_hold_time_never_sleeps_witness :
  py_lt0 minus_one = true /\
  exists m,
    run_main calm (Switch.script 0 {| Switch.state := "on"; Switch.active_high := true;
                                      Switch.hold_time := minus_one |})
    = mkProcess
        [Setmode; Setup Switch.relay_pin None; Output Switch.relay_pin HIGH;
         Print m; Cleanup; Print MsgCleanedUp]
        (Exited 0)
    /\ filter is_sleep
         (trace (run_main calm
                   (Switch.script 0 {| Switch.state := "on"; Switch.active_high := true;
                                       Switch.hold_time := minus_one |}))) = [].
Proof.
  split; [reflexivity|].
  apply (negative_hold_time_never_sleeps
           {| Switch.state := "on"; Switch.active_high := true;
              Switch.hold_time := minus_one |} calm 0).
  reflexivity.
Defined.

(** * More about the two scripts *)

(** X1.  On every way out of either script (the loop or the hold came to its
    end, CTRL+C cut a sleep short, [time.sleep] raised), the [finally]
    block runs once, last of all: the trace ends with its events, and
    [GPIO.cleanup()] is called nowhere before. *)
Theorem finally_block_runs_once_and_last :
  forall (w : World) (fuel : nat) (s : Script) (status : Z),
    ending (run_script w fuel s) = Exited status ->
    exists t,
      trace (run_script w fuel s) = t ++ cleanup_events s
      /\ filter is_cleanup t = []
      /\ filter is_cleanup (cleanup_events s) = [Cleanup].
Proof.
  intros w fuel [a|a] status H; cbn [run_script cleanup_events] in *.
  - rewrite ControlFacts.control_script_process in *.
    destruct (finish_ends_with _ _ _ _ H) as (t & Ht & Hcase).
    exists (control_header a ++ t). split; [exact Ht|]. split; [|reflexivity].
    pose proof (no_cleanup_filter (@ControlMore.loop_no_cleanup fuel a 0%Z w 0%nat)) as Hc.
    destruct Hcase as [-> | ->]; rewrite !filter_app, Hc; reflexivity.
  - rewrite SwitchFacts.switch_script_process in *.
    destruct (finish_ends_with _ _ _ _ H) as (t & Ht & Hcase).
    exists (switch_header ++ t). split; [exact Ht|]. split; [|reflexivity].
    pose proof (no_cleanup_filter (@switch_body_no_cleanup fuel a w 0%nat)) as Hc.
    destruct Hcase as [-> | ->]; rewrite !filter_app, Hc; reflexivity.
Qed.

Lemma finally_block_runs_once_and_last_witness :
  ending (run_script (ctrl_c_at 0) 3 (OneShot off_forever)) = Exited 0
  /\ exists t,
      trace (run_script (ctrl_c_at 0) 3 (OneShot off_forever))
      = t ++ cleanup_events (OneShot off_forever)
      /\ filter is_cleanup t = []
      /\ filter is_cleanup (cleanup_events (OneShot off_forever)) = [Cleanup].
Proof.
  assert (H : ending (run_script (ctrl_c_at 0) 3 (OneShot off_forever)) = Exited 0)
    by reflexivity.
  split; [exact H|].
  exact (@finally_block_runs_once_and_last (ctrl_c_at 0) 3%nat (OneShot off_forever) 0%Z H).
Defined.

(** X2.  The cycle driver leaves the relay off on every way out: whatever
    the arguments, the world and the exit status, the last three events
    are the write of the Off-level, the line printed with it and
    [GPIO.cleanup()], and the last level written is the Off-level. *)
Theorem cycle_driver_always_ends_on_off_level :
  forall (a : Control.Args) (w : World) (fuel : nat) (status : Z),
    ending (run_main w (Control.script fuel a)) = Exited status ->
    last_write (trace (run_main w (Control.script fuel a)))
    = Some (Control.RELAY_OFF (Control.active_high a))
    /\ exists t,
        trace (run_main w (Control.script fuel a))
        = t ++ [Output Control.relay_pin (Control.RELAY_OFF (Control.active_high a));
                Print MsgCleaningUp; Cleanup].
Proof.
  intros a w fuel status H.
  destruct (cycle_driver_ends_off _ _ _ H) as (_ & Hlast & Hend).
  split; assumption.
Qed.

Lemma cycle_driver_always_ends_on_off_level_witness :
  ending (run_main (ctrl_c_at 0) (Control.script 3 endless)) = Exited 0
  /\ last_write (trace (run_main (ctrl_c_at 0) (Control.script 3 endless)))
     = Some (Control.RELAY_OFF (Control.active_high endless))
  /\ exists t,
      trace (run_main (ctrl_c_at 0) (Control.script 3 endless))
      = t ++ [Output Control.relay_pin (Control.RELAY_OFF (Control.active_high endless));
              Print MsgCleaningUp; Cleanup].
Proof.
  assert (H : ending (run_main (ctrl_c_at 0) (Control.script 3 endless)) = Exited 0)
    by reflexivity.
  split; [exact H|].
  exact (@cycle_driver_always_ends_on_off_level endless (ctrl_c_at 0) 3%nat 0%Z H).
Defined.



(** X4.  The exit status of either script tells whether [time.sleep] raised:
    a process that is gone exited with status 1 when one of its sleeps was
    refused (the exception is not a KeyboardInterrupt, so nothing catches
    it), and with status 0 otherwise, interrupted or not. *)
Theorem exit_status_tells_a_refused_sleep :
  forall (w : World) (fuel : nat) (s : Script) (status : Z),
    ending (run_script w fuel s) = Exited status ->
    status = if existsb refused (trace (run_script w fuel s)) then 1%Z else 0%Z.
Proof.
  intros w fuel [a|a] status H; cbn [run_script] in *.
  - rewrite ControlFacts.control_script_process in *.
    apply finish_status in H; try reflexivity; [exact H|].
    apply control_loop_refusable.
  - rewrite SwitchFacts.switch_script_process in *.
    apply finish_status in H; try reflexivity; [exact H|].
    apply switch_body_refusable.
Qed.

Lemma exit_status_tells_a_refused_sleep_witness :
  ending (run_script calm 2 (CycleDriver bad_on_time)) = Exited 1
  /\ 1%Z = if existsb refused (trace (run_script calm 2 (CycleDriver bad_on_time)))
           then 1%Z else 0%Z.
Proof.
  assert (H : ending (run_script calm 2 (CycleDriver bad_on_time)) = Exited 1)
    by reflexivity.
  split; [exact H|].
  exact (@exit_status_tells_a_refused_sleep calm 2%nat (CycleDriver bad_on_time) 1%Z H).
Defined.

(** X5.  With a hold time equal to zero (the default, or [-0.0]) the
    one-shot driver sleeps one second at a time for ever: as long as
    CTRL+C reaches none of these sleeps the process is still running,
    has slept once per unit of fuel and has not released the pin; when
    CTRL+C reaches one, the process exits with status 0. *)
Theorem zero_hold_time_holds_until_interrupted :
  forall (a : Switch.Args) (w : World) (fuel : nat),
    py_eq0 (Switch.hold_time a) = true ->
    sleep_accepts w (PyInt 1) = true ->
    if existsb (interrupt_at w) (seq 0 fuel)
    then ending (run_main w (Switch.script fuel a)) = Exited 0
    else ending (run_main w (Switch.script fuel a)) = Running
         /\ filter is_sleep (trace (run_main w (Switch.script fuel a)))
            = repeat (Sleep (PyInt 1) Elapsed) fuel
         /\ filter is_cleanup (trace (run_main w (Switch.script fuel a))) = [].
Proof.
  intros a w fuel Hz Hok.
  rewrite SwitchFacts.switch_script_process, SwitchFacts.body_run.
  unfold Switch.hold. rewrite (py_eq0_gt0 _ Hz), Hz.
  unfold print. rewrite bind_emit. cbn [log naps result].
  pose proof (sleep_forever_run w Hok fuel 0) as H.
  destruct (existsb (interrupt_at w) (seq 0 fuel)).
  - unfold finish. cbn [result]. rewrite H. reflexivity.
  - destruct H as (Hr & Hl). unfold finish. cbn [result log]. rewrite Hr, Hl.
    cbn [trace ending]. split; [reflexivity|].
    assert (Hs : forall n, filter is_sleep (repeat (Sleep (PyInt 1) Elapsed) n)
                           = repeat (Sleep (PyInt 1) Elapsed) n)
      by (induction n as [|n IHn]; cbn; [|rewrite IHn]; reflexivity).
    assert (Hc : forall n, filter is_cleanup (repeat (Sleep (PyInt 1) Elapsed) n) = [])
      by (induction n as [|n IHn]; cbn; [|rewrite IHn]; reflexivity).
    split.
    + cbn [switch_header app filter is_sleep]. apply Hs.
    + cbn [switch_header app filter is_cleanup]. apply Hc.
Qed.

Lemma zero_hold_time_holds_until_interrupted_witness :
  py_eq0 (Switch.hold_time off_forever) = true
  /\ sleep_accepts calm (PyInt 1) = true
  /\ ending (run_main calm (Switch.script 4 off_forever)) = Running
  /\ filter is_sleep (trace (run_main calm (Switch.script 4 off_forever)))
     = repeat (Sleep (PyInt 1) Elapsed) 4
  /\ filter is_cleanup (trace (run_main calm (Switch.script 4 off_forever))) = [].
Proof.
  do 2 (split; [reflexivity|]).
  exact (@zero_hold_time_holds_until_interrupted off_forever calm 4%nat eq_refl eq_refl).
Defined.

(** X6.  With a hold time above zero that [time.sleep] accepts, and nobody
    at the keyboard during it, the one-shot driver does, in this order:
    [setmode], [setup], the write of the requested level, its line, the
    holding line, one sleep of the hold time, [GPIO.cleanup()] and the
    last line; it exits with status 0, with any fuel. *)
Theorem positive_hold_time_sleeps_once :
  forall (a : Switch.Args) (w : World) (fuel : nat),
    py_gt0 (Switch.hold_time a) = true ->
    sleep_accepts w (Switch.hold_time a) = true ->
    interrupt_at w 0 = false ->
    run_main w (Switch.script fuel a)
    = mkProcess
        [Setmode; Setup Switch.relay_pin None;
         Output Switch.relay_pin
                (Switch.requested_level (Switch.state a) (Switch.active_high a));
         Print (switch_said a);
         Print (MsgHolding (Switch.hold_time a));
         Sleep (Switch.hold_time a) Elapsed;
         Cleanup; Print MsgCleanedUp]
        (Exited 0).
Proof.
  intros a w fuel Hpos Hok Hquiet.
  rewrite SwitchFacts.switch_script_process, SwitchFacts.body_run.
  unfold Switch.hold. rewrite Hpos.
  unfold print. rewrite bind_emit. unfold time_sleep. cbn [log naps result].
  rewrite (ControlFacts.sleep_outcome_elapsed _ _ _ Hok Hquiet).
  reflexivity.
Qed.

Lemma positive_hold_time_sleeps_once_witness :
  py_gt0 (Switch.hold_time on_for_three) = true
  /\ sleep_accepts calm (Switch.hold_time on_for_three) = true
  /\ interrupt_at calm 0 = false
  /\ run_main calm (Switch.script 0 on_for_three)
     = mkProcess
         [Setmode; Setup Switch.relay_pin None;
          Output Switch.relay_pin
                 (Switch.requested_level (Switch.state on_for_three)
                                         (Switch.active_high on_for_three));
          Print (switch_said on_for_three);
          Print (MsgHolding (Switch.hold_time on_for_three));
          Sleep (Switch.hold_time on_for_three) Elapsed;
          Cleanup; Print MsgCleanedUp]
         (Exited 0).
Proof.
  do 3 (split; [reflexivity|]).
  exact (@positive_hold_time_sleeps_once on_for_three calm 0%nat eq_refl eq_refl eq_refl).
Defined.

(** X7.  The one-shot driver calls [time.sleep] exactly when the hold time
    is above zero or equal to zero: a hold time that is negative or not a
    number ([--hold-time nan]) takes neither branch, and the script goes
    from the write straight to the [finally] block. *)
Theorem one_shot_sleeps_iff_hold_time_not_below_zero :
  forall (a : Switch.Args) (w : World) (fuel : nat),
    existsb is_sleep (trace (run_main w (Switch.script (S fuel) a)))
    = py_gt0 (Switch.hold_time a) || py_eq0 (Switch.hold_time a).
Proof.
  intros a w fuel.
  rewrite SwitchFacts.switch_script_process, SwitchFacts.body_run.
  unfold Switch.hold.
  destruct (py_gt0 (Switch.hold_time a)) eqn:Hg; cbn [orb].
  - unfold print. rewrite bind_emit. unfold time_sleep. cbn [log naps result].
    unfold finish. cbn [result log].
    destruct (sleep_outcome w 0 (Switch.hold_time a)); reflexivity.
  - destruct (py_eq0 (Switch.hold_time a)) eqn:He.
    + unfold print. rewrite bind_emit. cbn [log naps result].
      destruct (sleep_forever_first fuel w 0) as (how & rest & Hl).
      unfold finish. cbn [result log]. rewrite Hl.
      destruct (result _) as [u|[|]|]; reflexivity.
    + reflexivity.
Qed.

(** X8.  A run of the cycle driver is its header, then a number of full
    passes through the loop, then what is left (the pass a sleep ended, the
    handler, the [finally] block), in which at most one sleep lasted and no
    "Completed cycle" line is printed.  With [--cycles N], [N > 0], each
    full pass ends with its line "Completed cycle i of N", [i] counting up
    from 1, so the lines are one per full pass, and there are at most [N]
    passes; with [--cycles 0] or a negative count no such line is ever
    printed.  This holds in every world and with any fuel. *)
Theorem completed_lines_count_up_to_cycles :
  forall (a : Control.Args) (w : World) (fuel : nat),
    exists (full : nat) (rest : list Event),
      trace (run_main w (Control.script fuel a))
      = control_header a
        ++ flat_map (fun i => control_pass a (Z.of_nat i)) (seq 1 full)
        ++ rest
      /\ completed_lines rest = []
      /\ (List.length (filter elapsed rest) <= 1)%nat
      /\ completed_lines (trace (run_main w (Control.script fuel a)))
         = (if (0 <? Control.cycles a)%Z
            then map (fun i => (Z.of_nat i, Control.cycles a)) (seq 1 full)
            else [])
      /\ ((0 < Control.cycles a)%Z -> (Z.of_nat full <= Control.cycles a)%Z).
Proof.
  intros a w fuel.
  destruct (ControlPasses.loop_passes a w fuel 0%Z 0%nat)
    as (full & rest & Hl & Hnone & Hone & _ & Hle).
  cbn [Z.add] in Hl.
  assert (Hlines : forall n,
             completed_lines (flat_map (fun i => control_pass a (Z.of_nat i)) (seq 1 n))
             = if (0 <? Control.cycles a)%Z
               then map (fun i => (Z.of_nat i, Control.cycles a)) (seq 1 n)
               else []).
  { intros n. generalize 1%nat. induction n as [|n IH]; intros s.
    - cbn. destruct (0 <? Control.cycles a)%Z; reflexivity.
    - cbn [seq flat_map map]. rewrite completed_lines_app, IH,
        ControlPasses.control_pass_completed.
      destruct (0 <? Control.cycles a)%Z; reflexivity. }
  rewrite ControlFacts.control_script_process. unfold finish.
  destruct (result _) as [u|[|]|]; cbn [trace]; rewrite Hl.
  - exists full, (rest ++ control_on_exit a).
    rewrite !completed_lines_app, Hlines, Hnone, filter_app, length_app.
    cbn. rewrite <- !app_assoc, !app_nil_r.
    repeat split; try reflexivity; lia.
  - exists full, (rest ++ control_on_interrupt ++ control_on_exit a).
    rewrite !completed_lines_app, Hlines, Hnone, filter_app, length_app.
    cbn. rewrite <- !app_assoc, !app_nil_r.
    repeat split; try reflexivity; lia.
  - exists full, (rest ++ control_on_exit a).
    rewrite !completed_lines_app, Hlines, Hnone, filter_app, length_app.
    cbn. rewrite <- !app_assoc, !app_nil_r.
    repeat split; try reflexivity; lia.
  - exists full, rest.
    rewrite !completed_lines_app, Hlines, Hnone.
    cbn. rewrite !app_nil_r.
    repeat split; try reflexivity; lia.
Qed.

(** X9.  The cycle driver never writes the On-level twice in a row: in a
    run that came to its end the levels written are pairs (On, Off), one
    per cycle started, followed by the Off-level of the [finally] block
    (which pairs with the On-level when the run was cut short while the
    relay was on).  With [--cycles N], [N > 0], the relay is switched on
    at most N times, whatever happens. *)
Theorem writes_alternate_and_stay_within_cycles :
  forall (a : Control.Args) (w : World) (fuel : nat) (status : Z),
    ending (run_main w (Control.script fuel a)) = Exited status ->
    exists (n : nat) (cut_short : bool),
      writes (trace (run_main w (Control.script fuel a)))
      = on_off n (Control.RELAY_ON (Control.active_high a))
                 (Control.RELAY_OFF (Control.active_high a))
        ++ (if cut_short
            then [Control.RELAY_ON (Control.active_high a);
                  Control.RELAY_OFF (Control.active_high a)]
            else [Control.RELAY_OFF (Control.active_high a)])
      /\ ((0 < Control.cycles a)%Z ->
          (Z.of_nat n + (if cut_short then 1 else 0) <= Control.cycles a)%Z).
Proof.
  intros a w fuel status.
  destruct (ControlCount.loop_writes a w fuel 0%Z 0%nat) as (n & partial & Hn & _ & Hle).
  rewrite ControlFacts.control_script_process. unfold finish.
  destruct (result _) as [u|[|]|]; cbn [trace ending]; intros H;
    try discriminate H; exists n, partial;
    (split; [|intros Hpos; specialize (Hle Hpos); lia]);
    rewrite !writes_app, Hn; cbn [writes control_header control_on_interrupt
                                   control_on_exit app];
    rewrite <- ?app_assoc; destruct partial; reflexivity.
Qed.

Lemma writes_alternate_and_stay_within_cycles_witness :
  ending (run_main (ctrl_c_at 2) (Control.script 5 two_cycles)) = Exited 0
  /\ exists (n : nat) (cut_short : bool),
      writes (trace (run_main (ctrl_c_at 2) (Control.script 5 two_cycles)))
      = on_off n (Control.RELAY_ON (Control.active_high two_cycles))
                 (Control.RELAY_OFF (Control.active_high two_cycles))
        ++ (if cut_short
            then [Control.RELAY_ON (Control.active_high two_cycles);
                  Control.RELAY_OFF (Control.active_high two_cycles)]
            else [Control.RELAY_OFF (Control.active_high two_cycles)])
      /\ ((0 < Control.cycles two_cycles)%Z ->
          (Z.of_nat n + (if cut_short then 1 else 0) <= Control.cycles two_cycles)%Z).
Proof.
  assert (H : ending (run_main (ctrl_c_at 2) (Control.script 5 two_cycles)) = Exited 0)
    by reflexivity.
  split; [exact H|].
  exact (@writes_alternate_and_stay_within_cycles two_cycles (ctrl_c_at 2) 5%nat 0%Z H).
Defined.

(** X10.  Whenever the one-shot driver's [parse_args] comes back, the
    [state] it holds is [on] or [off]: the [else] of lines 57-62 is taken
    for [off] and for nothing else. *)
Theorem one_shot_state_is_on_or_off :
  forall (b : Builtins) (argv : list string) (a : Switch.Args),
    Switch.parse_args b argv = Argparse.Namespace a ->
    Switch.state a = "on"%string \/ Switch.state a = "off"%string.
Proof.
  intros b argv a H. apply switch_state_checked in H.
  destruct (in_choices_word _ H) as ([|] & ->); [left | right]; reflexivity.
Qed.

Lemma one_shot_state_is_on_or_off_witness :
  Switch.parse_args sample_builtins ["--hold-time"; "3"; "on"]%string
  = Argparse.Namespace on_for_three
  /\ (Switch.state on_for_three = "on"%string \/ Switch.state on_for_three = "off"%string).
Proof.
  assert (H : Switch.parse_args sample_builtins ["--hold-time"; "3"; "on"]%string
              = Argparse.Namespace on_for_three) by reflexivity.
  split; [exact H|].
  exact (@one_shot_state_is_on_or_off sample_builtins
           ["--hold-time"; "3"; "on"]%string on_for_three H).
Defined.

(** X11.  Whenever the cycle driver's [parse_args] comes back, the
    [initial_state] it holds is [on] or [off], given on the command line
    or left at its default. *)
Theorem cycle_driver_initial_state_is_on_or_off :
  forall (b : Builtins) (argv : list string) (a : Control.Args),
    Control.parse_args b argv = Argparse.Namespace a ->
    Control.initial_state a = "on"%string \/ Control.initial_state a = "off"%string.
Proof.
  intros b argv a H. apply control_initial_state_checked in H.
  destruct (in_choices_word _ H) as ([|] & ->); [left | right]; reflexivity.
Qed.

Lemma cycle_driver_initial_state_is_on_or_off_witness :
  Control.parse_args sample_builtins ["--cycles"; "2"; "--on-time=0.5"]%string
  = Argparse.Namespace two_cycles
  /\ (Control.initial_state two_cycles = "on"%string
      \/ Control.initial_state two_cycles = "off"%string).
Proof.
  assert (H : Control.parse_args sample_builtins ["--cycles"; "2"; "--on-time=0.5"]%string
              = Argparse.Namespace two_cycles) by reflexivity.
  split; [exact H|].
  exact (@cycle_driver_initial_state_is_on_or_off sample_builtins
           ["--cycles"; "2"; "--on-time=0.5"]%string two_cycles H).
Defined.

(** X12.  On any command line, with any converters, in any world, the
    one-shot program either leaves through the parser, printing its
    message and touching no hardware, or it parsed a state [on] or [off]
    and a polarity, and the one level it writes to the pin in the whole
    run is the resolved level of that state. *)
Theorem one_shot_program_writes_a_resolved_level_or_nothing :
  forall (b : Builtins) (w : World) (fuel : nat) (argv : list string),
    (exists status,
        Switch.main b w fuel argv
        = mkProcess [Print (if (status =? 0)%Z then MsgHelp else MsgUsage)]
                    (Exited status))
    \/ (exists (s : LogicalState) (p : Polarity) (d : pynum),
           Switch.parse_args b argv
           = Argparse.Namespace {| Switch.state := state_word s;
                                   Switch.active_high := polarity_flag p;
                                   Switch.hold_time := d |}
           /\ writes (trace (Switch.main b w fuel argv)) = [resolve s p]).
Proof.
  intros b w fuel argv. unfold Switch.main.
  destruct (Switch.parse_args b argv) as [a|status] eqn:E.
  - right. pose proof (switch_state_checked _ _ E) as Hs.
    destruct (in_choices_word _ Hs) as (s & Hword).
    destruct (polarity_of_flag (Switch.active_high a)) as (p & Hp).
    exists s, p, (Switch.hold_time a).
    destruct a as [st ah d]. cbn in Hword, Hp. subst st ah.
    split; [reflexivity|].
    rewrite SwitchFacts.script_writes. cbn [Switch.state Switch.active_high].
    rewrite requested_level_resolve. reflexivity.
  - left. exists status. reflexivity.
Qed.

(** X13.  On any command line the cycle program either leaves through the
    parser, touching no hardware, or it parsed an initial state [on] or
    [off] and a polarity, and its run starts with [setmode] and the
    configuration of the pin at the resolved level of that state. *)
Theorem cycle_program_sets_up_a_resolved_level_or_nothing :
  forall (b : Builtins) (w : World) (fuel : nat) (argv : list string),
    (exists status,
        Control.main b w fuel argv
        = mkProcess [Print (if (status =? 0)%Z then MsgHelp else MsgUsage)]
                    (Exited status))
    \/ (exists (s : LogicalState) (p : Polarity) (a : Control.Args) (rest : list Event),
           Control.parse_args b argv = Argparse.Namespace a
           /\ Control.initial_state a = state_word s
           /\ Control.active_high a = polarity_flag p
           /\ trace (Control.main b w fuel argv)
              = Setmode :: Setup Control.relay_pin (Some (resolve s p)) :: rest).
Proof.
  intros b w fuel argv. unfold Control.main.
  destruct (Control.parse_args b argv) as [a|status] eqn:E.
  - right. pose proof (control_initial_state_checked _ _ E) as Hs.
    destruct (in_choices_word _ Hs) as (s & Hword).
    destruct (polarity_of_flag (Control.active_high a)) as (p & Hp).
    exists s, p, a.
    exists (tl (tl (trace (run_main w (Control.script fuel a))))).
    repeat (split; [first [reflexivity | assumption]|]).
    rewrite ControlFacts.control_script_process. unfold finish.
    destruct (result _) as [u|[|]|]; cbn [trace control_header app tl];
      rewrite Hword, Hp; destruct s, p; reflexivity.
  - left. exists status. reflexivity.
Qed.

(** X14.  A command line that gives the one-shot program no word for
    [state] is rejected: the process prints the parser's message and
    exits, and no call to the GPIO driver is made. *)
Theorem missing_state_touches_no_hardware :
  forall (b : Builtins) (w : World) (fuel : nat) (argv : list string),
    Argparse.first_positional (Switch.parser b) argv = None ->
    filter hardware (trace (Switch.main b w fuel argv)) = []
    /\ exists status,
        Switch.main b w fuel argv
        = mkProcess [Print (if (status =? 0)%Z then MsgHelp else MsgUsage)]
                    (Exited status).
Proof.
  intros b w fuel argv H.
  apply ArgparseMore.missing_positional_rejected in H; [|discriminate].
  unfold Switch.main. fold (Switch.parse_args b argv) in H.
  destruct (Switch.parse_args b argv) as [a|status].
  - destruct H. exists a. reflexivity.
  - split; [destruct (status =? 0)%Z; reflexivity|].
    exists status. reflexivity.
Qed.

Lemma missing_state_touches_no_hardware_witness :
  Argparse.first_positional (Switch.parser sample_builtins)
    ["--active-low"; "--hold-time"; "3"]%string = None
  /\ filter hardware
       (trace (Switch.main sample_builtins calm 5
                 ["--active-low"; "--hold-time"; "3"]%string)) = []
  /\ exists status,
      Switch.main sample_builtins calm 5 ["--active-low"; "--hold-time"; "3"]%string
      = mkProcess [Print (if (status =? 0)%Z then MsgHelp else MsgUsage)]
                  (Exited status).
Proof.
  assert (H : Argparse.first_positional (Switch.parser sample_builtins)
                ["--active-low"; "--hold-time"; "3"]%string = None) by reflexivity.
  split; [exact H|].
  exact (@missing_state_touches_no_hardware sample_builtins calm 5%nat
           ["--active-low"; "--hold-time"; "3"]%string H).
Defined.

(** X15.  [--active-high] and [--active-low] store into the same
    [active_high]: added at the end of a command line that is accepted
    (and has no [--]), either flag overrides whatever polarity the line
    gave before and changes nothing else, for both programs. *)
Theorem last_polarity_flag_wins :
  forall (b : Builtins) (argv : list string),
    existsb (String.eqb "--") argv = false ->
    (forall a : Control.Args,
        Control.parse_args b argv = Argparse.Namespace a ->
        Control.parse_args b (argv ++ ["--active-low"%string])
        = Argparse.Namespace (Control.set_active_high false a)
        /\ Control.parse_args b (argv ++ ["--active-high"%string])
           = Argparse.Namespace (Control.set_active_high true a))
    /\ (forall a : Switch.Args,
           Switch.parse_args b argv = Argparse.Namespace a ->
           Switch.parse_args b (argv ++ ["--active-low"%string])
           = Argparse.Namespace (Switch.set_active_high false a)
           /\ Switch.parse_args b (argv ++ ["--active-high"%string])
              = Argparse.Namespace (Switch.set_active_high true a)).
Proof.
  intros b argv Hsep. split; intros a H; split;
    (eapply ArgparseMore.trailing_flag_stores;
     [exact Hsep | reflexivity | reflexivity | exact H]).
Qed.

Lemma last_polarity_flag_wins_witness :
  existsb (String.eqb "--") high_two = false
  /\ (forall a : Control.Args,
         Control.parse_args sample_builtins high_two = Argparse.Namespace a ->
         Control.parse_args sample_builtins (high_two ++ ["--active-low"%string])
         = Argparse.Namespace (Control.set_active_high false a)
         /\ Control.parse_args sample_builtins (high_two ++ ["--active-high"%string])
            = Argparse.Namespace (Control.set_active_high true a))
  /\ (forall a : Switch.Args,
         Switch.parse_args sample_builtins high_two = Argparse.Namespace a ->
         Switch.parse_args sample_builtins (high_two ++ ["--active-low"%string])
         = Argparse.Namespace (Switch.set_active_high false a)
         /\ Switch.parse_args sample_builtins (high_two ++ ["--active-high"%string])
            = Argparse.Namespace (Switch.set_active_high true a)).
Proof.
  assert (H : existsb (String.eqb "--") high_two = false) by reflexivity.
  split; [exact H|].
  exact (@last_polarity_flag_wins sample_builtins high_two H).
Defined.

Example polarity_overridden :
  Control.parse_args sample_builtins (high_two ++ ["--active-low"%string])
  = Argparse.Namespace
      {| Control.on_time := PyFloat float_two; Control.off_time := PyFloat float_two;
         Control.cycles := 2; Control.initial_state := "off";
         Control.active_high := false |}.
Proof. reflexivity. Qed.

(** X16.  Both scripts use the GPIO driver in one order only: [setmode]
    once, then [setup] of pin 7 once, then writes to pin 7 and to no other
    pin, then, when the process exits, [cleanup] once and nothing after
    it; as long as the process runs the pin is not released.  This holds
    for every argument, world and fuel. *)
Theorem driver_calls_follow_the_protocol :
  forall (w : World) (fuel : nat) (s : Script),
    exists (initial : option Level) (levels : list Level),
      filter hardware (trace (run_script w fuel s))
      = Setmode :: Setup 7 initial :: map (Output 7) levels
        ++ match ending (run_script w fuel s) with
           | Exited _ => [Cleanup]
           | Running => []
           end.
Proof.
  intros w fuel [a|a]; cbn [run_script].
  - rewrite ControlFacts.control_script_process.
    pose proof (pin_7_only_hardware (@control_loop_pin_7_only fuel a 0%Z w 0%nat)) as Hl.
    exists (Some (Control.initial_level (Control.initial_state a) (Control.active_high a))).
    unfold finish.
    destruct (result _) as [u|[|]|]; cbn [trace ending];
      rewrite !filter_app, Hl;
      cbn [filter hardware control_header control_on_interrupt control_on_exit app];
      [ exists (writes (log (Control.while_loop fuel a 0 w 0))
                 ++ [Control.RELAY_OFF (Control.active_high a)])
      | exists (writes (log (Control.while_loop fuel a 0 w 0))
                 ++ [Control.RELAY_OFF (Control.active_high a)])
      | exists (writes (log (Control.while_loop fuel a 0 w 0))
                 ++ [Control.RELAY_OFF (Control.active_high a)])
      | exists (writes (log (Control.while_loop fuel a 0 w 0))) ];
      rewrite ?map_app, <- ?app_assoc, ?app_nil_r; reflexivity.
  - rewrite SwitchFacts.switch_script_process.
    pose proof (pin_7_only_hardware (@switch_body_pin_7_only fuel a w 0%nat)) as Hl.
    exists None, (writes (log (switch_body fuel a w 0))).
    unfold finish.
    destruct (result _) as [u|[|]|]; cbn [trace ending];
      rewrite !filter_app, Hl;
      cbn [filter hardware switch_header switch_on_interrupt switch_on_exit app];
      rewrite ?app_nil_r; reflexivity.
Qed.
